(** * casadi-nlp: the differentiable-NLP wrapper

    A shallow embedding of [casadi_nlp/wrappers/differentiable_nlp.py]
    together with the parts of the library it is used with: the symbolic
    backend (CasADi [SX] column vectors), the wrapped [Nlp] object and the
    [Solution] view.  numpy's [float64] and CasADi's numeric values are
    IEEE-754 binary64 numbers, modelled by Rocq's primitive floats. *)

From Stdlib Require Import String List Floats Bool Arith Lia Sorted.
Import ListNotations.
Open Scope string_scope.
Open Scope list_scope.
Open Scope nat_scope.

Set Implicit Arguments.

(* ================================================================== *)
(** * Exceptions and results *)

(** The exceptions that the modelled code can raise.  [NameError],
    [IndexError] and [TypeError] are raised by Python and numpy
    themselves; [BackendError] is the [RuntimeError] with which CasADi
    refuses an operation; [UnexpectedPrimalDualType] is the
    [RuntimeError] of lines 101-104 of [differentiable_nlp.py]; the
    remaining ones follow the error taxonomy of the specification (the
    test-suite observes [NamingConflict], [ValidationError] and
    [UnsupportedOperator] as [ValueError], and [PreconditionError] as
    [RuntimeError]). *)
Inductive PyError : Type :=
| NameError (name : string)
| IndexError
| TypeError
| BackendError
| UnexpectedPrimalDualType
| NamingConflict (name : string)
| ValidationError
| UnsupportedOperator
| PreconditionError.

Inductive Result (A : Type) : Type :=
| Ok (a : A)
| Raise (e : PyError).

Arguments Ok {A} a.
Arguments Raise {A} e.

Definition rbind {A B} (r : Result A) (k : A -> Result B) : Result B :=
  match r with
  | Ok a => k a
  | Raise e => Raise e
  end.

Declare Scope result_scope.
Delimit Scope result_scope with res.
Notation "x <- c ;; k" := (rbind c (fun x => k))
  (at level 61, c at next level, right associativity) : result_scope.
Notation "' p <- c ;; k" := (rbind c (fun x => match x with p => k end))
  (at level 61, p pattern, c at next level, right associativity) : result_scope.

Fixpoint rmapM {A B} (f : A -> Result B) (l : list A) : Result (list B) :=
  match l with
  | [] => Ok []
  | a :: l' =>
      (b <- f a ;; bs <- rmapM f l' ;; Ok (b :: bs))%res
  end.

(** Python dictionaries keep insertion order and the registries are read
    in that order, so a dictionary is an association list. *)
Fixpoint assoc {V} (k : string) (d : list (string * V)) : option V :=
  match d with
  | [] => None
  | (k', v) :: d' => if String.eqb k k' then Some v else assoc k d'
  end.

Definition contains {V} (k : string) (d : list (string * V)) : bool :=
  match assoc k d with Some _ => true | None => false end.

(* ================================================================== *)
(** * The symbolic backend *)

Module Backend.

(** A scalar [SX] expression.  [Sym name k] is the [k]-th entry (in
    column-major order) of the symbol created under [name]. *)
Inductive SX : Type :=
| Sym (name : string) (k : nat)
| Const (c : float)
| Add (a b : SX)
| Sub (a b : SX)
| Mul (a b : SX).

(** A column vector, as produced by [cs.vec] and [cs.vertcat]. *)
Definition vec := list SX.

(** A matrix-valued symbol or expression with its shape; the entries are
    kept in column-major order, which is the order of [cs.vec]. *)
Record Mat : Type := mkMat { rows : nat; cols : nat; elems : vec }.

Definition valid_mat (m : Mat) : bool :=
  length (elems m) =? rows m * cols m.

(** [cs.SX.sym(name, rows, cols)]. *)
Definition sym (name : string) (r c : nat) : Mat :=
  mkMat r c (map (Sym name) (seq 0 (r * c))).

(** [cs.vertcat] applied to a list of column vectors. *)
Definition vertcat (args : list vec) : vec := concat args.

(** The accumulation loop of [cs.dot]: [r = 0; r += x[i] * y[i]]. *)
Definition dot_sum (a b : vec) : SX :=
  fold_left (fun r xy => Add r (Mul (fst xy) (snd xy)))
            (combine a b) (Const 0%float).

(** [cs.dot(a, b)]; the backend refuses operands of different sizes. *)
Definition dot (a b : vec) : Result SX :=
  if length a =? length b then Ok (dot_sum a b) else Raise BackendError.

(** [v[idx]] on a numpy array: an index out of range is an
    [IndexError]. *)
Definition np_take {A} (v : list A) (idx : list nat) : Result (list A) :=
  rmapM (fun i => match nth_error v i with
                  | Some a => Ok a
                  | None => Raise IndexError
                  end) idx.

(** [v[idx]] on an [SX] column vector [v] for a one-dimensional array of
    indices: an index out of range is refused by the backend.  The result
    has the shape of the index, a column, unless the vector that is read
    is also a row, which a vector of one entry is: the result is then the
    row [1 x len(idx)]. *)
Definition sx_take (v : vec) (idx : list nat) : Result Mat :=
  (es <- rmapM (fun i => match nth_error v i with
                         | Some a => Ok a
                         | None => Raise BackendError
                         end) idx ;;
   Ok (if length v =? 1
       then mkMat 1 (length idx) es
       else mkMat (length idx) 1 es))%res.

(** [a - x] for the numpy column [a] (the shape of [lbx[idx, None]]) and
    an [SX] matrix [x], an operation of the backend: a side with one
    entry is subtracted from, or subtracts, every entry of the other
    side; otherwise the two shapes must be the same, and the backend
    refuses the operation when they are not.  (Releases of the backend
    that repeat a column along an operand of several columns differ on
    such an [x] only, which [sx_take] does not return.) *)
Definition np_sub_sx (a : list float) (x : Mat) : Result Mat :=
  match a, rows x, cols x, elems x with
  | [c], _, _, _ =>
      Ok (mkMat (rows x) (cols x) (map (Sub (Const c)) (elems x)))
  | _, 1, 1, [e] =>
      Ok (mkMat (length a) 1 (map (fun c => Sub (Const c) e) a))
  | _, _, _, _ =>
      if (rows x =? length a) && (cols x =? 1)
      then Ok (mkMat (length a) 1
                     (map (fun ax => Sub (Const (fst ax)) (snd ax))
                          (combine a (elems x))))
      else Raise BackendError
  end.

(** [x - a], likewise. *)
Definition sx_sub_np (x : Mat) (a : list float) : Result Mat :=
  match rows x, cols x, elems x, a with
  | 1, 1, [e], _ =>
      Ok (mkMat (length a) 1 (map (fun c => Sub e (Const c)) a))
  | _, _, _, [c] =>
      Ok (mkMat (rows x) (cols x) (map (fun e => Sub e (Const c)) (elems x)))
  | _, _, _, _ =>
      if (rows x =? length a) && (cols x =? 1)
      then Ok (mkMat (length a) 1
                     (map (fun xa => Sub (fst xa) (Const (snd xa)))
                          (combine (elems x) a)))
      else Raise BackendError
  end.

(** Numeric evaluation under an assignment of the symbols' entries;
    [None] when a free symbol is left. *)
Definition Assignment := string -> nat -> option float.

Fixpoint evalf (env : Assignment) (e : SX) : option float :=
  let bin op a b :=
    match evalf env a, evalf env b with
    | Some u, Some v => Some (op u v)
    | _, _ => None
    end in
  match e with
  | Sym s k => env s k
  | Const c => Some c
  | Add a b => bin PrimFloat.add a b
  | Sub a b => bin PrimFloat.sub a b
  | Mul a b => bin PrimFloat.mul a b
  end.

(** The symbols an expression mentions. *)
Fixpoint symbols (e : SX) : list string :=
  match e with
  | Sym s _ => [s]
  | Const _ => []
  | Add a b | Sub a b | Mul a b => symbols a ++ symbols b
  end.

Definition is_symbolic (m : Mat) : bool :=
  existsb (fun e => negb (match symbols e with [] => true | _ => false end))
          (elems m).

End Backend.
Import Backend.

(* ================================================================== *)
(** * The wrapped NLP *)

Module Nlp.

(** A bound argument of [variable]: a number, broadcast to the shape of
    the variable, or an array that must have the variable's size. *)
Inductive Bound : Type :=
| Scalar (c : float)
| Array (a : list float).

Definition default_lb : Bound := Scalar neg_infinity.
Definition default_ub : Bound := Scalar infinity.

Definition broadcast (b : Bound) (n : nat) : Result (list float) :=
  match b with
  | Scalar c => Ok (repeat c n)
  | Array a => if length a =? n then Ok a else Raise ValidationError
  end.

(** Modelled from the spec: the class [Nlp] (module [casadi_nlp.nlp]) is
    not part of the sources at hand; its state is the registry of
    section 3 and 4.1 of the specification.  The registries map names to
    Symbols in declaration order; the stacked vectors are the
    concatenations, in declaration order, of the declared entities
    ([_x] with bounds [_lbx], [_ubx] and bound multipliers [_lam_lbx],
    [_lam_ubx]; parameters [_p]; the equality group [_g] and the
    inequality group [_h] with multipliers [_lam_g], [_lam_h]); [_f] is
    the objective, absent until [minimize] sets it. *)
Record t : Type := mk {
  _vars : list (string * Mat);
  _pars : list (string * Mat);
  _cons : list (string * Mat);
  _dual_vars : list (string * Mat);
  _x : vec;
  _lbx : list float;
  _ubx : list float;
  _lam_lbx : vec;
  _lam_ubx : vec;
  _p : vec;
  _g : vec;
  _lam_g : vec;
  _h : vec;
  _lam_h : vec;
  _f : option SX;
  _solver_opts : option (list (string * string))
}.

(** [Nlp()]: nothing declared yet. *)
Definition init : t :=
  mk [] [] [] [] [] [] [] [] [] [] [] [] [] [] None None.

(** [count(kind)]: the number of scalar entries of a stacked vector. *)
Definition nx (n : t) : nat := length (_x n).
Definition np (n : t) : nat := length (_p n).
Definition ng (n : t) : nat := length (_g n).
Definition nh (n : t) : nat := length (_h n).

(** A method of the NLP: the exception or the returned value, and the
    state the object is left in. *)
Definition Method (A : Type) : Type := t -> Result A * t.

(** Modelled from the spec: [declare_variable(name, shape, lb, ub)].  The
    name check, the broadcast of the bounds and the check [lb <= ub] come
    before any registry is touched; then the Symbol and its two bound
    multipliers are created, registered and stacked. *)
Definition variable (name : string) (shape : nat * nat) (lb ub : Bound)
  : Method (Mat * Mat * Mat) := fun n =>
  if contains name (_vars n) then (Raise (NamingConflict name), n) else
  let size := fst shape * snd shape in
  match broadcast lb size, broadcast ub size with
  | Raise e, _ | Ok _, Raise e => (Raise e, n)
  | Ok lbs, Ok ubs =>
      if existsb (fun lu => PrimFloat.ltb (snd lu) (fst lu)) (combine lbs ubs)
      then (Raise ValidationError, n)
      else
        let var := sym name (fst shape) (snd shape) in
        let lam_lb := sym (String.append "lam_lb_" name) (fst shape) (snd shape) in
        let lam_ub := sym (String.append "lam_ub_" name) (fst shape) (snd shape) in
        (Ok (var, lam_lb, lam_ub),
         mk (_vars n ++ [(name, var)])
            (_pars n)
            (_cons n)
            (_dual_vars n ++ [(String.append "lam_lb_" name, lam_lb);
                              (String.append "lam_ub_" name, lam_ub)])
            (_x n ++ elems var)
            (_lbx n ++ lbs)
            (_ubx n ++ ubs)
            (_lam_lbx n ++ elems lam_lb)
            (_lam_ubx n ++ elems lam_ub)
            (_p n) (_g n) (_lam_g n) (_h n) (_lam_h n) (_f n)
            (_solver_opts n))
  end.

(** Modelled from the spec: [declare_parameter(name, shape)]. *)
Definition parameter (name : string) (shape : nat * nat) : Method Mat :=
  fun n =>
  if contains name (_pars n) then (Raise (NamingConflict name), n) else
  let par := sym name (fst shape) (snd shape) in
  (Ok par,
   mk (_vars n) (_pars n ++ [(name, par)]) (_cons n) (_dual_vars n)
      (_x n) (_lbx n) (_ubx n) (_lam_lbx n) (_lam_ubx n)
      (_p n ++ elems par)
      (_g n) (_lam_g n) (_h n) (_lam_h n) (_f n) (_solver_opts n)).

(** [lhs - rhs], a side of one entry being broadcast to the shape of the
    other side. *)
Definition sub_broadcast (lhs rhs : Mat) : Result Mat :=
  if (rows lhs =? rows rhs) && (cols lhs =? cols rhs) then
    Ok (mkMat (rows lhs) (cols lhs)
              (map (fun ab => Sub (fst ab) (snd ab))
                   (combine (elems lhs) (elems rhs))))
  else
    match elems lhs, elems rhs with
    | [a], _ => Ok (mkMat (rows rhs) (cols rhs) (map (Sub a) (elems rhs)))
    | _, [b] => Ok (mkMat (rows lhs) (cols lhs)
                          (map (fun a => Sub a b) (elems lhs)))
    | _, _ => Raise ValidationError
    end.

(** Modelled from the spec: [declare_constraint(name, lhs, operator,
    rhs)].  A duplicate name is a naming conflict; a side that is not a
    valid expression, or two sides without any symbol, is the
    TypeError-equivalent; sides of incompatible shapes are a validation
    error; an operator outside [==], [<=], [>=] is unsupported.  The
    operator decides the group: [==] puts [lhs - rhs] in [g], [<=] puts
    [lhs - rhs] in [h], and [>=] puts [rhs - lhs] in [h].  The multiplier
    has the shape of the constraint. *)
Definition constraint (name : string) (lhs : Mat) (op : string) (rhs : Mat)
  : Method (Mat * Mat) := fun n =>
  if contains name (_cons n) then (Raise (NamingConflict name), n) else
  if negb (valid_mat lhs && valid_mat rhs) then (Raise TypeError, n) else
  if negb (is_symbolic lhs || is_symbolic rhs) then (Raise TypeError, n) else
  let register (group_is_g : bool) (expr : Mat) :=
    let lam_name :=
      String.append (if group_is_g then "lam_g_" else "lam_h_") name in
    let lam := sym lam_name (rows expr) (cols expr) in
    (Ok (expr, lam),
     mk (_vars n) (_pars n) (_cons n ++ [(name, expr)])
        (_dual_vars n ++ [(lam_name, lam)])
        (_x n) (_lbx n) (_ubx n) (_lam_lbx n) (_lam_ubx n) (_p n)
        (if group_is_g then _g n ++ elems expr else _g n)
        (if group_is_g then _lam_g n ++ elems lam else _lam_g n)
        (if group_is_g then _h n else _h n ++ elems expr)
        (if group_is_g then _lam_h n else _lam_h n ++ elems lam)
        (_f n) (_solver_opts n)) in
  if String.eqb op "==" then
    match sub_broadcast lhs rhs with
    | Ok expr => register true expr
    | Raise e => (Raise e, n)
    end
  else if String.eqb op "<=" then
    match sub_broadcast lhs rhs with
    | Ok expr => register false expr
    | Raise e => (Raise e, n)
    end
  else if String.eqb op ">=" then
    match sub_broadcast rhs lhs with
    | Ok expr => register false expr
    | Raise e => (Raise e, n)
    end
  else (Raise UnsupportedOperator, n).

(** Modelled from the spec: [set_objective(expr)]; an objective that is
    not a scalar is a validation error. *)
Definition minimize (objective : Mat) : Method unit := fun n =>
  match rows objective, cols objective, elems objective with
  | 1, 1, [f] =>
      (Ok tt,
       mk (_vars n) (_pars n) (_cons n) (_dual_vars n)
          (_x n) (_lbx n) (_ubx n) (_lam_lbx n) (_lam_ubx n) (_p n)
          (_g n) (_lam_g n) (_h n) (_lam_h n) (Some f) (_solver_opts n))
  | _, _, _ => (Raise ValidationError, n)
  end.

(** Modelled from the spec: [init_solver(options)] stores the solver
    configuration. *)
Definition init_solver (opts : list (string * string)) : Method unit :=
  fun n =>
  (Ok tt,
   mk (_vars n) (_pars n) (_cons n) (_dual_vars n)
      (_x n) (_lbx n) (_ubx n) (_lam_lbx n) (_lam_ubx n) (_p n)
      (_g n) (_lam_g n) (_h n) (_lam_h n) (_f n) (Some opts)).

End Nlp.

(* ================================================================== *)
(** * The wrapper [DifferentiableNlp] *)

Module DifferentiableNlp.

(** The global names that the module [differentiable_nlp] binds to
    lists of strings (line 8 of the source). *)
Definition module_globals : list (string * list string) :=
  [("PRIMAL_DUAL_ORDER", ["x"; "g"; "h"; "h_lbx"; "h_ubx"])].

(** Reading a global name inside a function body: a name that the
    module does not bind raises [NameError]. *)
Definition load_global (name : string) : Result (list string) :=
  match assoc name module_globals with
  | Some v => Ok v
  | None => Raise (NameError name)
  end.

(** The instance: the wrapped NLP (attribute [nlp] of the base class
    [Wrapper]), the two flags stored by [__init__], and the entries that
    the four cached properties leave in the instance dictionary. *)
Record t : Type := mk {
  nlp : Nlp.t;
  remove_reduntant_x_bounds : bool;
  include_barrier_term : bool;
  cached_h_lbx : option (vec * vec);
  cached_h_ubx : option (vec * vec);
  cached_lagrangian : option SX;
  cached_primal_dual_variables : option vec
}.

Definition __init__ (n : Nlp.t) (simplify_x_bounds : bool)
           (include_barrier : bool) : t :=
  mk n simplify_x_bounds include_barrier None None None None.

(** Assigning the public attribute [remove_reduntant_x_bounds] of an
    instance: a plain attribute store. *)
Definition set_remove_reduntant_x_bounds (b : bool) (self : t) : t :=
  mk (nlp self) b (include_barrier_term self)
     (cached_h_lbx self) (cached_h_ubx self)
     (cached_lagrangian self) (cached_primal_dual_variables self).

(** ** Computations on an instance: state and exceptions *)

Definition M (A : Type) : Type := t -> Result A * t.

Definition ret {A} (a : A) : M A := fun self => (Ok a, self).

Definition bind {A B} (c : M A) (k : A -> M B) : M B := fun self =>
  match c self with
  | (Ok a, self') => k a self'
  | (Raise e, self') => (Raise e, self')
  end.

Definition lift {A} (r : Result A) : M A := fun self => (r, self).

Definition attr {A} (field : t -> A) : M A := fun self => (Ok (field self), self).

Declare Scope wrapper_scope.
Delimit Scope wrapper_scope with M.
Notation "x <- c ;; k" := (bind c (fun x => k))
  (at level 61, c at next level, right associativity) : wrapper_scope.
Notation "' p <- c ;; k" := (bind c (fun x => match x with p => k end))
  (at level 61, p pattern, c at next level, right associativity)
  : wrapper_scope.

(** ** The decorators of [casadi_nlp.util] *)

Inductive Property : Type :=
| prop_h_lbx
| prop_h_ubx
| prop_lagrangian
| prop_primal_dual_variables.

(** Where a cached property keeps its value in the instance. *)
Record Slot (A : Type) : Type := mkSlot {
  slot_get : t -> option A;
  slot_set : option A -> t -> t
}.

Definition slot_h_lbx : Slot (vec * vec) :=
  mkSlot cached_h_lbx
    (fun v s => mk (nlp s) (remove_reduntant_x_bounds s)
                   (include_barrier_term s) v (cached_h_ubx s)
                   (cached_lagrangian s) (cached_primal_dual_variables s)).

Definition slot_h_ubx : Slot (vec * vec) :=
  mkSlot cached_h_ubx
    (fun v s => mk (nlp s) (remove_reduntant_x_bounds s)
                   (include_barrier_term s) (cached_h_lbx s) v
                   (cached_lagrangian s) (cached_primal_dual_variables s)).

Definition slot_lagrangian : Slot SX :=
  mkSlot cached_lagrangian
    (fun v s => mk (nlp s) (remove_reduntant_x_bounds s)
                   (include_barrier_term s) (cached_h_lbx s)
                   (cached_h_ubx s) v (cached_primal_dual_variables s)).

Definition slot_primal_dual_variables : Slot vec :=
  mkSlot cached_primal_dual_variables
    (fun v s => mk (nlp s) (remove_reduntant_x_bounds s)
                   (include_barrier_term s) (cached_h_lbx s)
                   (cached_h_ubx s) (cached_lagrangian s) v).

(** Modelled from the spec: the decorator [cached_property] of
    [casadi_nlp.util] is not part of the sources at hand.  The result of
    the getter is memoized in the instance: the getter runs when the
    instance holds no value, the value it returns is stored, and later
    accesses return the stored value.  A getter that raises stores
    nothing. *)
Definition cached_property {A} (slot : Slot A) (fget : M A) : M A :=
  fun self =>
  match slot_get slot self with
  | Some v => (Ok v, self)
  | None =>
      match fget self with
      | (Ok v, self') => (Ok v, slot_set slot (Some v) self')
      | (Raise e, self') => (Raise e, self')
      end
  end.

Definition invalidate (p : Property) (self : t) : t :=
  match p with
  | prop_h_lbx => slot_set slot_h_lbx None self
  | prop_h_ubx => slot_set slot_h_ubx None self
  | prop_lagrangian => slot_set slot_lagrangian None self
  | prop_primal_dual_variables =>
      slot_set slot_primal_dual_variables None self
  end.

(** Modelled from the spec: the decorator [cached_property_reset] of
    [casadi_nlp.util] is not part of the sources at hand.  A call of the
    decorated method invalidates the cached values of the listed
    properties and runs the method. *)
Definition cached_property_reset {A} (props : list Property)
           (method : M A) : M A :=
  fun self => method (fold_left (fun s p => invalidate p s) props self).

(** A call [self.nlp.method(...)]: the method runs on the wrapped NLP,
    which the instance keeps referring to. *)
Definition on_nlp {A} (method : Nlp.Method A) : M A := fun self =>
  let (r, n') := method (nlp self) in
  (r, mk n' (remove_reduntant_x_bounds self) (include_barrier_term self)
         (cached_h_lbx self) (cached_h_ubx self)
         (cached_lagrangian self) (cached_primal_dual_variables self)).

(** ** The properties and methods of the class *)

(** [np.where(a != c)[0]]: the indices, in increasing order, of the
    entries that differ from [c]. *)
Definition np_where_ne (a : list float) (c : float) : list nat :=
  filter (fun i => match nth_error a i with
                   | Some v => negb (PrimFloat.eqb v c)
                   | None => false
                   end)
         (seq 0 (length a)).

(** [np.arange(n)]. *)
Definition np_arange (n : nat) : list nat := seq 0 n.

(** The two matrices that the property [h_lbx] computes (lines
    55-60). *)
Definition h_lbx_matrices (self : t) : Result (Mat * Mat) :=
  let idx :=
    if remove_reduntant_x_bounds self
    then np_where_ne (Nlp._lbx (nlp self)) neg_infinity
    else np_arange (Nlp.nx (nlp self)) in
  (lb <- np_take (Nlp._lbx (nlp self)) idx ;;
   x <- sx_take (Nlp._x (nlp self)) idx ;;
   h <- np_sub_sx lb x ;;
   lam <- sx_take (Nlp._lam_lbx (nlp self)) idx ;;
   Ok (h, lam))%res.

(** The body of the property [h_lbx]: the pair of the two matrices,
    which are columns whenever the property returns, as the column
    vectors of their entries. *)
Definition h_lbx_body (self : t) : Result (vec * vec) :=
  (p <- h_lbx_matrices self ;; Ok (elems (fst p), elems (snd p)))%res.

Definition h_lbx : M (vec * vec) :=
  cached_property slot_h_lbx (fun self => (h_lbx_body self, self)).

(** The two matrices that the property [h_ubx] computes (lines
    67-72). *)
Definition h_ubx_matrices (self : t) : Result (Mat * Mat) :=
  let idx :=
    if remove_reduntant_x_bounds self
    then np_where_ne (Nlp._ubx (nlp self)) infinity
    else np_arange (Nlp.nx (nlp self)) in
  (x <- sx_take (Nlp._x (nlp self)) idx ;;
   ub <- np_take (Nlp._ubx (nlp self)) idx ;;
   h <- sx_sub_np x ub ;;
   lam <- sx_take (Nlp._lam_ubx (nlp self)) idx ;;
   Ok (h, lam))%res.

(** The body of the property [h_ubx], likewise. *)
Definition h_ubx_body (self : t) : Result (vec * vec) :=
  (p <- h_ubx_matrices self ;; Ok (elems (fst p), elems (snd p)))%res.

Definition h_ubx : M (vec * vec) :=
  cached_property slot_h_ubx (fun self => (h_ubx_body self, self)).

(** [self.nlp._f + e]: the objective is an [SX] once [minimize] has set
    it; before that the attribute holds [None], which is no operand of
    an addition. *)
Definition add_objective (f : option SX) (e : SX) : Result SX :=
  match f with
  | Some f => Ok (Add f e)
  | None => Raise TypeError
  end.

(** The property [lagrangian] (lines 77-83). *)
Definition lagrangian_body : M SX :=
  ('(h_lbx_, lam_h_lbx) <- h_lbx ;;
   '(h_ubx_, lam_h_ubx) <- h_ubx ;;
   n <- attr nlp ;;
   d_g <- lift (dot (Nlp._lam_g n) (Nlp._g n)) ;;
   s1 <- lift (add_objective (Nlp._f n) d_g) ;;
   d_h <- lift (dot (Nlp._lam_h n) (Nlp._h n)) ;;
   d_lbx <- lift (dot lam_h_lbx h_lbx_) ;;
   d_ubx <- lift (dot lam_h_ubx h_ubx_) ;;
   ret (Add (Add (Add s1 d_h) d_lbx) d_ubx))%M.

Definition lagrangian : M SX :=
  cached_property slot_lagrangian lagrangian_body.

(** The loop of [primal_dual_variables] (lines 88-104) over a given
    order list. *)
Fixpoint primal_dual_args (order : list string) : M (list vec) :=
  match order with
  | [] => ret []
  | o :: order' =>
      (arg <-
         (if String.eqb o "x" then
            n <- attr nlp ;; ret (Nlp._x n)
          else if String.eqb o "g" then
            n <- attr nlp ;; ret (Nlp._lam_g n)
          else if String.eqb o "h" then
            n <- attr nlp ;; ret (Nlp._lam_h n)
          else if String.eqb o "h_lbx" then
            p <- h_lbx ;; ret (snd p)
          else if String.eqb o "h_ubx" then
            p <- h_ubx ;; ret (snd p)
          else lift (Raise UnexpectedPrimalDualType)) ;;
       args <- primal_dual_args order' ;;
       ret (arg :: args))%M
  end.

(** The property [primal_dual_variables] (lines 88-105): the loop runs
    over the global [_PRIMAL_DUAL_ORDER]. *)
Definition primal_dual_variables_body : M vec :=
  (order <- lift (load_global "_PRIMAL_DUAL_ORDER") ;;
   args <- primal_dual_args order ;;
   ret (vertcat args))%M.

Definition primal_dual_variables : M vec :=
  cached_property slot_primal_dual_variables primal_dual_variables_body.

(** The three decorated methods (lines 107-117). *)
Definition variable (name : string) (shape : nat * nat)
           (lb ub : Nlp.Bound) : M (Mat * Mat * Mat) :=
  cached_property_reset
    [prop_h_lbx; prop_h_ubx; prop_lagrangian; prop_primal_dual_variables]
    (on_nlp (Nlp.variable name shape lb ub)).

Definition constraint (name : string) (lhs : Mat) (op : string)
           (rhs : Mat) : M (Mat * Mat) :=
  cached_property_reset [prop_lagrangian; prop_primal_dual_variables]
    (on_nlp (Nlp.constraint name lhs op rhs)).

Definition minimize (objective : Mat) : M unit :=
  cached_property_reset [prop_lagrangian]
    (on_nlp (Nlp.minimize objective)).

End DifferentiableNlp.

(* ================================================================== *)
(** * Solving and the [Solution] view *)

Module Solution.

(** What the external solver hands back. *)
Record SolverOutput : Type := mkOutput {
  out_success : bool;
  out_f : float;
  out_x : list float;
  out_lam_g : list float;
  out_lam_h : list float;
  out_lam_lbx : list float;
  out_lam_ubx : list float
}.

(** The external solver: from the assembled problem, the stacked
    parameter values and the initial guess to its output. *)
Definition Solver : Type :=
  Nlp.t -> list float -> list (string * list float) -> SolverOutput.

Definition is_entry (s : string) (k : nat) (e : SX) : bool :=
  match e with
  | Sym s' k' => String.eqb s s' && (k =? k')
  | _ => false
  end.

(** The assignment that substitutes the recorded values for the
    entries of the recorded symbols. *)
Definition assignment_of (subs : list (SX * float)) : Assignment :=
  fun s k => option_map snd (find (fun p => is_entry s k (fst p)) subs).

(** Modelled from the spec: the class [Solution] (module
    [casadi_nlp.solutions]) is not part of the sources at hand.  A
    solution holds the solver's verdict, the optimal objective, the
    primal-dual and parameter assignment recorded at solve time, and the
    values of the declared variables by name. *)
Record t : Type := mk {
  f : float;
  success : bool;
  subs : list (SX * float);
  vals : list (string * list float)
}.

(** Modelled from the spec: evaluation by substitution of the recorded
    assignment, entry by entry; an expression with a symbol outside the
    assignment cannot be evaluated. *)
Definition value_with (subs : list (SX * float)) (expr : Mat)
  : Result (list float) :=
  rmapM (fun e => match evalf (assignment_of subs) e with
                  | Some v => Ok v
                  | None => Raise BackendError
                  end) (elems expr).

(** [Solution.value(expr)]. *)
Definition value (sol : t) (expr : Mat) : Result (list float) :=
  value_with (subs sol) expr.

(** Modelled from the spec: [solve(parameter_values, initial_guess)].
    It fails with a precondition error when no solver was initialized
    or when a declared parameter has no value; the parameter values are
    stacked in declaration order; the solver's output is packaged with
    the value of every declared variable, looked up in the registry and
    evaluated through the same substitution as [value]. *)
Definition solve (solver : Solver) (pars : list (string * list float))
           (vals0 : list (string * list float)) (n : Nlp.t) : Result t :=
  match Nlp._solver_opts n with
  | None => Raise PreconditionError
  | Some _ =>
      (p <- rmapM (fun np => match assoc (fst np) pars with
                             | Some v => Ok v
                             | None => Raise PreconditionError
                             end) (Nlp._pars n) ;;
       let out := solver n (concat p) vals0 in
       let subs :=
         combine (Nlp._x n) (out_x out) ++
         combine (Nlp._lam_g n) (out_lam_g out) ++
         combine (Nlp._lam_h n) (out_lam_h out) ++
         combine (Nlp._lam_lbx n) (out_lam_lbx out) ++
         combine (Nlp._lam_ubx n) (out_lam_ubx out) ++
         combine (Nlp._p n) (concat p) in
       vals <- rmapM (fun nv => v <- value_with subs (snd nv) ;;
                                Ok (fst nv, v))
                     (Nlp._vars n) ;;
       Ok (mk (out_f out) (out_success out) subs vals))%res
  end.

End Solution.

(* ================================================================== *)
(** * Sequences of calls *)

(** A call on an NLP that is not wrapped. *)
Inductive NlpCall : Type :=
| NVariable (name : string) (shape : nat * nat) (lb ub : Nlp.Bound)
| NParameter (name : string) (shape : nat * nat)
| NConstraint (name : string) (lhs : Mat) (op : string) (rhs : Mat)
| NMinimize (objective : Mat)
| NInitSolver (opts : list (string * string)).

Definition nlp_call (c : NlpCall) (n : Nlp.t) : Nlp.t :=
  match c with
  | NVariable name shape lb ub => snd (Nlp.variable name shape lb ub n)
  | NParameter name shape => snd (Nlp.parameter name shape n)
  | NConstraint name lhs op rhs => snd (Nlp.constraint name lhs op rhs n)
  | NMinimize objective => snd (Nlp.minimize objective n)
  | NInitSolver opts => snd (Nlp.init_solver opts n)
  end.

(** The NLP after a sequence of calls, whether they succeed or raise. *)
Definition nlp_calls (cs : list NlpCall) (n : Nlp.t) : Nlp.t :=
  fold_left (fun n c => nlp_call c n) cs n.

(** A use of a wrapper: a declaration through it, or the access of one
    of its cached properties. *)
Inductive Call : Type :=
| CVariable (name : string) (shape : nat * nat) (lb ub : Nlp.Bound)
| CConstraint (name : string) (lhs : Mat) (op : string) (rhs : Mat)
| CMinimize (objective : Mat)
| CGet (p : DifferentiableNlp.Property).

Definition call (c : Call) (w : DifferentiableNlp.t) : DifferentiableNlp.t :=
  match c with
  | CVariable name shape lb ub =>
      snd (DifferentiableNlp.variable name shape lb ub w)
  | CConstraint name lhs op rhs =>
      snd (DifferentiableNlp.constraint name lhs op rhs w)
  | CMinimize objective => snd (DifferentiableNlp.minimize objective w)
  | CGet DifferentiableNlp.prop_h_lbx => snd (DifferentiableNlp.h_lbx w)
  | CGet DifferentiableNlp.prop_h_ubx => snd (DifferentiableNlp.h_ubx w)
  | CGet DifferentiableNlp.prop_lagrangian =>
      snd (DifferentiableNlp.lagrangian w)
  | CGet DifferentiableNlp.prop_primal_dual_variables =>
      snd (DifferentiableNlp.primal_dual_variables w)
  end.

Definition calls (cs : list Call) (w : DifferentiableNlp.t)
  : DifferentiableNlp.t :=
  fold_left (fun w c => call c w) cs w.

(* ================================================================== *)
(** * Lists read at a list of indices *)

Section Take.

Context {A B : Type}.
Variable f : A -> Result B.

Lemma rmapM_Forall2 (l : list A) (l' : list B) :
  rmapM f l = Ok l' -> Forall2 (fun a b => f a = Ok b) l l'.
Proof.
  revert l'. induction l as [|a l IH]; simpl; intros l' H.
  - inversion H. constructor.
  - destruct (f a) as [b|e] eqn:Ha; simpl in H; [|discriminate].
    destruct (rmapM f l) as [bs|e] eqn:Hl; simpl in H; [|discriminate].
    inversion H; subst. constructor; auto.
Qed.

Lemma rmapM_total (l : list A) :
  (forall a, In a l -> exists b, f a = Ok b) ->
  exists l', rmapM f l = Ok l'.
Proof.
  induction l as [|a l IH]; simpl; intros H.
  - eauto.
  - destruct (H a (or_introl eq_refl)) as [b Hb].
    destruct IH as [bs Hbs]; [intros; apply H; auto|].
    rewrite Hb, Hbs. simpl. eauto.
Qed.

End Take.

Lemma np_take_Forall2 {A} (v : list A) idx l :
  np_take v idx = Ok l -> Forall2 (fun i a => nth_error v i = Some a) idx l.
Proof.
  intros H. apply rmapM_Forall2 in H.
  induction H as [|i a idx l Hi _ IH]; constructor; auto.
  destruct (nth_error v i); congruence.
Qed.

(** The shape of [v[idx]]: a row when [v] has one entry, a column
    otherwise. *)
Definition take_shape (n k : nat) : nat * nat :=
  if n =? 1 then (1, k) else (k, 1).

Lemma sx_take_Forall2 (v : vec) idx m :
  sx_take v idx = Ok m ->
  Forall2 (fun i a => nth_error v i = Some a) idx (elems m) /\
  (rows m, cols m) = take_shape (length v) (length idx).
Proof.
  unfold sx_take, take_shape. intros H.
  destruct (rmapM _ idx) as [es|e] eqn:E; simpl in H; [|discriminate].
  apply rmapM_Forall2 in E.
  assert (F : Forall2 (fun i a => nth_error v i = Some a) idx es).
  { clear H. induction E as [|i a idx es Hi _ IH]; constructor; auto.
    destruct (nth_error v i); congruence. }
  destruct (length v =? 1); inversion H; subst; simpl; auto.
Qed.

Lemma np_take_total {A} (v : list A) idx :
  Forall (fun i => i < length v) idx -> exists l, np_take v idx = Ok l.
Proof.
  intros H. apply rmapM_total. intros i Hi.
  rewrite Forall_forall in H. apply H in Hi.
  destruct (nth_error v i) eqn:E; eauto.
  apply nth_error_None in E. lia.
Qed.

Lemma sx_take_total (v : vec) idx :
  Forall (fun i => i < length v) idx -> exists m, sx_take v idx = Ok m.
Proof.
  intros H. unfold sx_take.
  destruct (@rmapM_total _ _
              (fun i => match nth_error v i with
                        | Some a => Ok a
                        | None => Raise BackendError
                        end) idx) as [es Hes].
  - intros i Hi. rewrite Forall_forall in H. apply H in Hi.
    destruct (nth_error v i) eqn:E; eauto.
    apply nth_error_None in E. lia.
  - rewrite Hes. simpl. eauto.
Qed.

(** Reading a list at every index gives the list back. *)
Lemma Forall2_seq_nth_error {A} (v l : list A) (k : nat) :
  Forall2 (fun i a => nth_error v i = Some a) (seq k (length v - k)) l ->
  l = skipn k v.
Proof.
  remember (length v - k) as m eqn:Hm. revert k l Hm.
  induction m as [|m IH]; simpl; intros k l Hm H.
  - inversion H. symmetry. apply skipn_all2. lia.
  - inversion H as [|i a idx l' Hi Hrest]; subst.
    rewrite (IH (S k) l') by (auto; lia).
    clear - Hi. revert k Hi. induction v as [|b v IHv]; intros [|k] Hi;
      simpl in *; try discriminate.
    + congruence.
    + auto.
Qed.

(** The entries of [lb - x] and of [x - ub] for two columns of one
    length. *)
Definition lb_minus_x (a : list float) (x : vec) : vec :=
  map (fun ax => Sub (Const (fst ax)) (snd ax)) (combine a x).

Definition x_minus_ub (x : vec) (a : list float) : vec :=
  map (fun xa => Sub (fst xa) (Const (snd xa))) (combine x a).

(** The one case in which the subtraction of lines 59 and 71 is refused:
    the stacked variable has one entry, so that it is a row as well as a
    column, and no index is retained; [x[idx]] is then the empty row
    [1 x 0], and the bound read at [idx, None] the empty column
    [0 x 1]. *)
Definition degenerate (n k : nat) : bool := (n =? 1) && (k =? 0).

(** A matrix of one column. *)
Definition column (m : Mat) : Prop :=
  rows m = length (elems m) /\ cols m = 1.

Lemma take_shape_column n k :
  k <= n -> degenerate n k = false -> take_shape n k = (k, 1).
Proof.
  unfold degenerate, take_shape. intros Hk.
  destruct (Nat.eqb_spec n 1) as [->|Hn]; [|reflexivity].
  destruct k as [|[|k]]; simpl; [discriminate|reflexivity|lia].
Qed.

Lemma np_sub_sx_taken (a : list float) (x : Mat) (n : nat) :
  length (elems x) = length a ->
  (rows x, cols x) = take_shape n (length a) ->
  length a <= n ->
  if degenerate n (length a)
  then np_sub_sx a x = Raise BackendError
  else exists h, np_sub_sx a x = Ok h /\
                 elems h = lb_minus_x a (elems x) /\
                 rows h = length a /\ cols h = 1.
Proof.
  destruct x as [r c es]. unfold take_shape, degenerate, np_sub_sx, lb_minus_x.
  simpl. intros L S Hk.
  destruct (Nat.eqb_spec n 1) as [->|Hn]; inversion S; subst; simpl.
  - destruct a as [|c0 [|c1 a]]; simpl in *; [reflexivity| |lia].
    destruct es as [|e [|e' es]]; simpl in *; try discriminate.
    eexists. repeat split.
  - destruct a as [|c0 [|c1 a]]; simpl in *.
    + destruct es; [|discriminate]. simpl. eexists. repeat split.
    + destruct es as [|e [|e' es]]; simpl in *; try discriminate.
      eexists. repeat split.
    + destruct es as [|e [|e' es]]; simpl in *; try discriminate.
      rewrite Nat.eqb_refl. simpl. eexists. repeat split.
Qed.

Lemma sx_sub_np_taken (x : Mat) (a : list float) (n : nat) :
  length (elems x) = length a ->
  (rows x, cols x) = take_shape n (length a) ->
  length a <= n ->
  if degenerate n (length a)
  then sx_sub_np x a = Raise BackendError
  else exists h, sx_sub_np x a = Ok h /\
                 elems h = x_minus_ub (elems x) a /\
                 rows h = length a /\ cols h = 1.
Proof.
  destruct x as [r c es]. unfold take_shape, degenerate, sx_sub_np, x_minus_ub.
  simpl. intros L S Hk.
  destruct (Nat.eqb_spec n 1) as [->|Hn]; inversion S; subst; simpl.
  - destruct a as [|c0 [|c1 a]]; simpl in *; [reflexivity| |lia].
    destruct es as [|e [|e' es]]; simpl in *; try discriminate.
    eexists. repeat split.
  - destruct a as [|c0 [|c1 a]]; simpl in *.
    + destruct es; [|discriminate]. simpl. eexists. repeat split.
    + destruct es as [|e [|e' es]]; simpl in *; try discriminate.
      eexists. repeat split.
    + destruct es as [|e [|e' es]]; simpl in *; try discriminate.
      rewrite Nat.eqb_refl. simpl. eexists. repeat split.
Qed.

Lemma lb_minus_x_Forall2 (lbx : list float) (x : vec) idx lb xs :
  Forall2 (fun i a => nth_error lbx i = Some a) idx lb ->
  Forall2 (fun i a => nth_error x i = Some a) idx xs ->
  Forall2 (fun i e => exists b xi,
               nth_error lbx i = Some b /\ nth_error x i = Some xi /\
               e = Sub (Const b) xi)
          idx (lb_minus_x lb xs).
Proof.
  intros H. revert xs. induction H as [|i b idx lb Hb _ IH]; intros xs Hx;
    inversion Hx; subst; simpl; constructor; eauto.
Qed.

Lemma x_minus_ub_Forall2 (ubx : list float) (x : vec) idx ub xs :
  Forall2 (fun i a => nth_error x i = Some a) idx xs ->
  Forall2 (fun i a => nth_error ubx i = Some a) idx ub ->
  Forall2 (fun i e => exists b xi,
               nth_error ubx i = Some b /\ nth_error x i = Some xi /\
               e = Sub xi (Const b))
          idx (x_minus_ub xs ub).
Proof.
  intros H. revert ub. induction H as [|i xi idx xs Hxi _ IH]; intros ub Hu;
    inversion Hu; subst; simpl; constructor; eauto.
Qed.

Lemma Forall2_length_eq {A B} (R : A -> B -> Prop) l l' :
  Forall2 R l l' -> length l = length l'.
Proof. induction 1; simpl; congruence. Qed.

(* ================================================================== *)
(** * Well-formed NLPs *)

(** The number of scalar entries that the declared variables have by
    their shapes. *)
Definition declared_rows (n : Nlp.t) : nat :=
  list_sum (map (fun nv => rows (snd nv) * cols (snd nv)) (Nlp._vars n)).

(** The stacked vectors of one kind have one length. *)
Record Nlp_wf (n : Nlp.t) : Prop := mkWf {
  wf_lbx : length (Nlp._lbx n) = length (Nlp._x n);
  wf_ubx : length (Nlp._ubx n) = length (Nlp._x n);
  wf_lam_lbx : length (Nlp._lam_lbx n) = length (Nlp._x n);
  wf_lam_ubx : length (Nlp._lam_ubx n) = length (Nlp._x n);
  wf_lam_g : length (Nlp._lam_g n) = length (Nlp._g n);
  wf_lam_h : length (Nlp._lam_h n) = length (Nlp._h n);
  wf_rows : length (Nlp._x n) = declared_rows n
}.

Lemma sym_length name r c : length (elems (sym name r c)) = r * c.
Proof. unfold sym. simpl. now rewrite length_map, length_seq. Qed.

Lemma broadcast_length b n l : Nlp.broadcast b n = Ok l -> length l = n.
Proof.
  destruct b as [c|a]; simpl.
  - intros H. inversion H. apply repeat_length.
  - destruct (Nat.eqb_spec (length a) n); intros H; inversion H; subst; auto.
Qed.

Lemma sub_broadcast_valid lhs rhs e :
  valid_mat lhs = true -> valid_mat rhs = true ->
  Nlp.sub_broadcast lhs rhs = Ok e -> valid_mat e = true.
Proof.
  unfold valid_mat, Nlp.sub_broadcast. intros Hl Hr.
  apply Nat.eqb_eq in Hl, Hr.
  destruct ((rows lhs =? rows rhs) && (cols lhs =? cols rhs)) eqn:E.
  - apply andb_true_iff in E. destruct E as [Er Ec].
    apply Nat.eqb_eq in Er, Ec. intros H. inversion H; subst; simpl.
    apply Nat.eqb_eq. rewrite length_map, length_combine. lia.
  - destruct (elems lhs) as [|a [|a' l]] eqn:El;
      destruct (elems rhs) as [|b [|b' r]] eqn:Erhs;
      intros H; inversion H; subst; simpl in Hl, Hr;
      cbn [rows cols elems]; apply Nat.eqb_eq;
      rewrite ?length_map, ?El, ?Erhs; simpl length; rewrite ?length_map;
      lia.
Qed.

Lemma init_wf : Nlp_wf Nlp.init.
Proof. constructor; reflexivity. Qed.

Lemma variable_wf name shape lb ub n :
  Nlp_wf n -> Nlp_wf (snd (Nlp.variable name shape lb ub n)).
Proof.
  intros [H1 H2 H3 H4 H5 H6 H7]. unfold Nlp.variable.
  destruct (contains name (Nlp._vars n)); [constructor; assumption|].
  destruct (Nlp.broadcast lb _) as [lbs|e] eqn:Elb;
    [|constructor; assumption].
  destruct (Nlp.broadcast ub _) as [ubs|e] eqn:Eub;
    [|constructor; assumption].
  destruct (existsb _ _); [constructor; assumption|].
  apply broadcast_length in Elb, Eub.
  constructor; simpl; unfold declared_rows; simpl;
    rewrite ?length_app, ?length_map, ?length_seq, ?map_app, ?list_sum_app;
    simpl; fold (declared_rows n); lia.
Qed.

Lemma parameter_wf name shape n :
  Nlp_wf n -> Nlp_wf (snd (Nlp.parameter name shape n)).
Proof.
  intros [H1 H2 H3 H4 H5 H6 H7]. unfold Nlp.parameter.
  destruct (contains name (Nlp._pars n)); constructor; assumption.
Qed.

Lemma minimize_wf objective n :
  Nlp_wf n -> Nlp_wf (snd (Nlp.minimize objective n)).
Proof.
  intros [H1 H2 H3 H4 H5 H6 H7]. unfold Nlp.minimize.
  destruct (rows objective) as [|[|r]]; try (constructor; assumption).
  destruct (cols objective) as [|[|c]]; try (constructor; assumption).
  destruct (elems objective) as [|f [|f' l]]; constructor; assumption.
Qed.

Lemma init_solver_wf opts n :
  Nlp_wf n -> Nlp_wf (snd (Nlp.init_solver opts n)).
Proof. intros [H1 H2 H3 H4 H5 H6 H7]. constructor; assumption. Qed.

(** What [constraint] leaves alone: everything that belongs to the
    variables, and the objective. *)
Definition same_variables (n n' : Nlp.t) : Prop :=
  Nlp._vars n' = Nlp._vars n /\ Nlp._x n' = Nlp._x n /\
  Nlp._lbx n' = Nlp._lbx n /\ Nlp._ubx n' = Nlp._ubx n /\
  Nlp._lam_lbx n' = Nlp._lam_lbx n /\ Nlp._lam_ubx n' = Nlp._lam_ubx n.

Lemma same_variables_refl n : same_variables n n.
Proof. repeat split. Qed.

Lemma constraint_cases name lhs op rhs n :
  snd (Nlp.constraint name lhs op rhs n) = n \/
  exists (is_g : bool) expr lam,
    valid_mat expr = true /\
    length (elems lam) = rows expr * cols expr /\
    snd (Nlp.constraint name lhs op rhs n) =
    Nlp.mk (Nlp._vars n) (Nlp._pars n) (Nlp._cons n ++ [(name, expr)])
      (Nlp._dual_vars n ++
         [(String.append (if is_g then "lam_g_" else "lam_h_") name, lam)])
      (Nlp._x n) (Nlp._lbx n) (Nlp._ubx n) (Nlp._lam_lbx n) (Nlp._lam_ubx n)
      (Nlp._p n)
      (if is_g then Nlp._g n ++ elems expr else Nlp._g n)
      (if is_g then Nlp._lam_g n ++ elems lam else Nlp._lam_g n)
      (if is_g then Nlp._h n else Nlp._h n ++ elems expr)
      (if is_g then Nlp._lam_h n else Nlp._lam_h n ++ elems lam)
      (Nlp._f n) (Nlp._solver_opts n).
Proof.
  unfold Nlp.constraint.
  destruct (contains name (Nlp._cons n)); [now left|].
  destruct (valid_mat lhs) eqn:Vl; [|now left].
  destruct (valid_mat rhs) eqn:Vr; [|now left]. simpl.
  destruct (is_symbolic lhs || is_symbolic rhs); [|now left]. simpl.
  destruct (String.eqb op "==");
    [|destruct (String.eqb op "<="); [|destruct (String.eqb op ">=")]].
  - destruct (Nlp.sub_broadcast lhs rhs) as [e|] eqn:E; [|now left].
    right. exists true, e, (sym (String.append "lam_g_" name) (rows e) (cols e)).
    split; [apply (sub_broadcast_valid lhs rhs); assumption|].
    split; [apply sym_length|reflexivity].
  - destruct (Nlp.sub_broadcast lhs rhs) as [e|] eqn:E; [|now left].
    right. exists false, e, (sym (String.append "lam_h_" name) (rows e) (cols e)).
    split; [apply (sub_broadcast_valid lhs rhs); assumption|].
    split; [apply sym_length|reflexivity].
  - destruct (Nlp.sub_broadcast rhs lhs) as [e|] eqn:E; [|now left].
    right. exists false, e, (sym (String.append "lam_h_" name) (rows e) (cols e)).
    split; [apply (sub_broadcast_valid rhs lhs); assumption|].
    split; [apply sym_length|reflexivity].
  - now left.
Qed.

Lemma constraint_same_variables name lhs op rhs n :
  same_variables n (snd (Nlp.constraint name lhs op rhs n)).
Proof.
  destruct (constraint_cases name lhs op rhs n) as [->|(g & e & l & _ & _ & ->)].
  - apply same_variables_refl.
  - repeat split.
Qed.

Lemma constraint_wf name lhs op rhs n :
  Nlp_wf n -> Nlp_wf (snd (Nlp.constraint name lhs op rhs n)).
Proof.
  intros [H1 H2 H3 H4 H5 H6 H7].
  destruct (constraint_cases name lhs op rhs n)
    as [->|(g & e & l & He & Hl & ->)]; [constructor; assumption|].
  apply Nat.eqb_eq in He.
  constructor; simpl; auto; destruct g; rewrite ?length_app; lia.
Qed.

Lemma minimize_same_variables objective n :
  same_variables n (snd (Nlp.minimize objective n)).
Proof.
  unfold Nlp.minimize.
  destruct (rows objective) as [|[|r]]; try apply same_variables_refl.
  destruct (cols objective) as [|[|c]]; try apply same_variables_refl.
  destruct (elems objective) as [|f [|f' l]]; repeat split.
Qed.

Lemma nlp_call_wf c n : Nlp_wf n -> Nlp_wf (nlp_call c n).
Proof.
  destruct c; cbn [nlp_call]; intros H.
  - now apply variable_wf.
  - now apply parameter_wf.
  - now apply constraint_wf.
  - now apply minimize_wf.
  - now apply init_solver_wf.
Qed.

Lemma nlp_calls_wf cs n : Nlp_wf n -> Nlp_wf (nlp_calls cs n).
Proof.
  revert n. induction cs as [|c cs IH]; simpl; intros n H; auto.
  apply IH, nlp_call_wf, H.
Qed.

(* ================================================================== *)
(** * Cached values agree with the NLP *)

Abbreviation Wrapper := DifferentiableNlp.t.
Abbreviation simplify_flag := DifferentiableNlp.remove_reduntant_x_bounds.

(** The Lagrangian that the getter assembles when both bound terms are
    computed from the NLP as it is. *)
Definition lagrangian_of (w : Wrapper) : Result SX :=
  let n := DifferentiableNlp.nlp w in
  ('(h_lbx_, lam_h_lbx) <- DifferentiableNlp.h_lbx_body w ;;
   '(h_ubx_, lam_h_ubx) <- DifferentiableNlp.h_ubx_body w ;;
   d_g <- dot (Nlp._lam_g n) (Nlp._g n) ;;
   s1 <- DifferentiableNlp.add_objective (Nlp._f n) d_g ;;
   d_h <- dot (Nlp._lam_h n) (Nlp._h n) ;;
   d_lbx <- dot lam_h_lbx h_lbx_ ;;
   d_ubx <- dot lam_h_ubx h_ubx_ ;;
   Ok (Add (Add (Add s1 d_h) d_lbx) d_ubx))%res.

(** Every value held in the instance is the value that its getter
    computes now. *)
Record coherent (w : Wrapper) : Prop := mkCoherent {
  coh_h_lbx : forall v, DifferentiableNlp.cached_h_lbx w = Some v ->
                        DifferentiableNlp.h_lbx_body w = Ok v;
  coh_h_ubx : forall v, DifferentiableNlp.cached_h_ubx w = Some v ->
                        DifferentiableNlp.h_ubx_body w = Ok v;
  coh_lagrangian : forall v, DifferentiableNlp.cached_lagrangian w = Some v ->
                             lagrangian_of w = Ok v;
  coh_primal_dual : DifferentiableNlp.cached_primal_dual_variables w = None
}.

(** Two states of one instance whose NLP and flags are the same. *)
Definition same_instance (w w' : Wrapper) : Prop :=
  DifferentiableNlp.nlp w' = DifferentiableNlp.nlp w /\
  simplify_flag w' = simplify_flag w /\
  DifferentiableNlp.include_barrier_term w' =
  DifferentiableNlp.include_barrier_term w.

Lemma same_instance_refl w : same_instance w w.
Proof. repeat split. Qed.

Lemma same_instance_trans w1 w2 w3 :
  same_instance w1 w2 -> same_instance w2 w3 -> same_instance w1 w3.
Proof. unfold same_instance. intuition congruence. Qed.

Lemma h_lbx_body_ext w w' :
  same_variables (DifferentiableNlp.nlp w) (DifferentiableNlp.nlp w') ->
  simplify_flag w' = simplify_flag w ->
  DifferentiableNlp.h_lbx_body w' = DifferentiableNlp.h_lbx_body w.
Proof.
  intros (_ & Hx & Hl & _ & Hll & _) Hf.
  unfold DifferentiableNlp.h_lbx_body, DifferentiableNlp.h_lbx_matrices, Nlp.nx.
  now rewrite Hx, Hl, Hll, Hf.
Qed.

Lemma h_ubx_body_ext w w' :
  same_variables (DifferentiableNlp.nlp w) (DifferentiableNlp.nlp w') ->
  simplify_flag w' = simplify_flag w ->
  DifferentiableNlp.h_ubx_body w' = DifferentiableNlp.h_ubx_body w.
Proof.
  intros (_ & Hx & _ & Hu & _ & Hlu) Hf.
  unfold DifferentiableNlp.h_ubx_body, DifferentiableNlp.h_ubx_matrices, Nlp.nx.
  now rewrite Hx, Hu, Hlu, Hf.
Qed.

Lemma same_instance_variables w w' :
  same_instance w w' ->
  same_variables (DifferentiableNlp.nlp w) (DifferentiableNlp.nlp w').
Proof. intros (-> & _). apply same_variables_refl. Qed.

Lemma lagrangian_of_ext w w' :
  same_instance w w' -> lagrangian_of w' = lagrangian_of w.
Proof.
  intros H. unfold lagrangian_of.
  rewrite (h_lbx_body_ext w w'), (h_ubx_body_ext w w')
    by (try apply same_instance_variables; apply H).
  destruct H as (-> & _). reflexivity.
Qed.

Lemma coherent_ext w w' :
  same_instance w w' ->
  (forall v, DifferentiableNlp.cached_h_lbx w' = Some v ->
             DifferentiableNlp.h_lbx_body w = Ok v) ->
  (forall v, DifferentiableNlp.cached_h_ubx w' = Some v ->
             DifferentiableNlp.h_ubx_body w = Ok v) ->
  (forall v, DifferentiableNlp.cached_lagrangian w' = Some v ->
             lagrangian_of w = Ok v) ->
  DifferentiableNlp.cached_primal_dual_variables w' = None ->
  coherent w'.
Proof.
  intros H H1 H2 H3 H4. constructor; auto.
  - intros v Hv. rewrite (h_lbx_body_ext w w'); auto.
    + now apply same_instance_variables.
    + apply H.
  - intros v Hv. rewrite (h_ubx_body_ext w w'); auto.
    + now apply same_instance_variables.
    + apply H.
  - intros v Hv. rewrite (lagrangian_of_ext H); auto.
Qed.

(** ** The getters on a coherent instance *)

Lemma h_lbx_spec w :
  coherent w ->
  exists w', DifferentiableNlp.h_lbx w = (DifferentiableNlp.h_lbx_body w, w')
             /\ coherent w' /\ same_instance w w'.
Proof.
  intros C. unfold DifferentiableNlp.h_lbx, DifferentiableNlp.cached_property.
  simpl. destruct (DifferentiableNlp.cached_h_lbx w) as [v|] eqn:E.
  - exists w. rewrite (coh_h_lbx C E). auto using same_instance_refl.
  - destruct (DifferentiableNlp.h_lbx_body w) as [v|e] eqn:B.
    + eexists. split; [reflexivity|]. split; [|repeat split].
      destruct C. apply coherent_ext with (w := w); simpl; auto.
      * repeat split.
      * intros v' Hv'. congruence.
    + exists w. auto using same_instance_refl.
Qed.

Lemma h_ubx_spec w :
  coherent w ->
  exists w', DifferentiableNlp.h_ubx w = (DifferentiableNlp.h_ubx_body w, w')
             /\ coherent w' /\ same_instance w w'.
Proof.
  intros C. unfold DifferentiableNlp.h_ubx, DifferentiableNlp.cached_property.
  simpl. destruct (DifferentiableNlp.cached_h_ubx w) as [v|] eqn:E.
  - exists w. rewrite (coh_h_ubx C E). auto using same_instance_refl.
  - destruct (DifferentiableNlp.h_ubx_body w) as [v|e] eqn:B.
    + eexists. split; [reflexivity|]. split; [|repeat split].
      destruct C. apply coherent_ext with (w := w); simpl; auto.
      * repeat split.
      * intros v' Hv'. congruence.
    + exists w. auto using same_instance_refl.
Qed.

Lemma lagrangian_body_spec w :
  coherent w ->
  exists w', DifferentiableNlp.lagrangian_body w = (lagrangian_of w, w')
             /\ coherent w' /\ same_instance w w'.
Proof.
  intros C.
  destruct (h_lbx_spec C) as (w1 & E1 & C1 & S1).
  destruct (h_ubx_spec C1) as (w2 & E2 & C2 & S2).
  assert (S12 : same_instance w w2) by (eapply same_instance_trans; eauto).
  rewrite (h_ubx_body_ext w w1) in E2
    by (try apply same_instance_variables; apply S1).
  unfold DifferentiableNlp.lagrangian_body, DifferentiableNlp.bind,
    lagrangian_of.
  rewrite E1.
  destruct (DifferentiableNlp.h_lbx_body w) as [[hl ll]|e].
  2:{ exists w1. auto. }
  rewrite E2.
  destruct (DifferentiableNlp.h_ubx_body w) as [[hu lu]|e].
  2:{ exists w2. auto. }
  unfold DifferentiableNlp.attr, DifferentiableNlp.lift, DifferentiableNlp.ret.
  pose proof S12 as (Hn & Hf & Hb). simpl. rewrite Hn.
  exists w2. split; [|split; assumption].
  repeat match goal with
         | |- context [match ?r with Ok _ => _ | Raise _ => _ end] =>
             destruct r; simpl; try reflexivity
         end.
Qed.

Lemma lagrangian_spec w :
  coherent w ->
  exists w', DifferentiableNlp.lagrangian w = (lagrangian_of w, w')
             /\ coherent w' /\ same_instance w w'.
Proof.
  intros C.
  unfold DifferentiableNlp.lagrangian, DifferentiableNlp.cached_property.
  simpl. destruct (DifferentiableNlp.cached_lagrangian w) as [v|] eqn:E.
  - exists w. rewrite (coh_lagrangian C E). auto using same_instance_refl.
  - destruct (lagrangian_body_spec C) as (w' & E' & C' & S'). rewrite E'.
    destruct (lagrangian_of w) as [v|e] eqn:B.
    + eexists. split; [reflexivity|].
      split; [|destruct S' as (? & ? & ?); repeat split; assumption].
      destruct C'. apply coherent_ext with (w := w'); simpl; auto.
      * repeat split.
      * intros v' Hv'. rewrite (lagrangian_of_ext S'). congruence.
    + exists w'. auto.
Qed.

(** The name that the loop of [primal_dual_variables] reads is not bound:
    the getter raises before it touches the instance. *)
Lemma primal_dual_variables_body_raises w :
  DifferentiableNlp.primal_dual_variables_body w =
  (Raise (NameError "_PRIMAL_DUAL_ORDER"), w).
Proof. reflexivity. Qed.

Lemma primal_dual_variables_spec w :
  coherent w ->
  DifferentiableNlp.primal_dual_variables w =
  (Raise (NameError "_PRIMAL_DUAL_ORDER"), w).
Proof.
  intros C. unfold DifferentiableNlp.primal_dual_variables,
    DifferentiableNlp.cached_property. simpl.
  now rewrite (coh_primal_dual C).
Qed.

(** ** The invariant of a wrapper used through its own methods *)

Definition inv (w : Wrapper) : Prop :=
  Nlp_wf (DifferentiableNlp.nlp w) /\ coherent w.

Lemma init_inv n s b : Nlp_wf n -> inv (DifferentiableNlp.__init__ n s b).
Proof. intros H. split; [exact H|]. constructor; simpl; congruence. Qed.

Lemma variable_inv name shape lb ub w :
  inv w -> inv (snd (DifferentiableNlp.variable name shape lb ub w)).
Proof.
  intros [Hwf _].
  unfold DifferentiableNlp.variable, DifferentiableNlp.cached_property_reset,
    DifferentiableNlp.on_nlp. simpl.
  pose proof (variable_wf name shape lb ub Hwf) as Hwf'.
  destruct (Nlp.variable name shape lb ub (DifferentiableNlp.nlp w))
    as [r n']. simpl in *.
  split; [exact Hwf'|]. constructor; simpl; congruence.
Qed.

Lemma constraint_inv name lhs op rhs w :
  inv w -> inv (snd (DifferentiableNlp.constraint name lhs op rhs w)).
Proof.
  intros [Hwf C].
  unfold DifferentiableNlp.constraint, DifferentiableNlp.cached_property_reset,
    DifferentiableNlp.on_nlp. simpl.
  pose proof (constraint_wf name lhs op rhs Hwf) as Hwf'.
  pose proof (constraint_same_variables name lhs op rhs
                (DifferentiableNlp.nlp w)) as Hs.
  destruct (Nlp.constraint name lhs op rhs (DifferentiableNlp.nlp w))
    as [r n']. simpl in *.
  split; [exact Hwf'|]. constructor; simpl; try congruence.
  - intros v Hv. rewrite <- (coh_h_lbx C Hv). now apply h_lbx_body_ext.
  - intros v Hv. rewrite <- (coh_h_ubx C Hv). now apply h_ubx_body_ext.
Qed.

Lemma minimize_inv objective w :
  inv w -> inv (snd (DifferentiableNlp.minimize objective w)).
Proof.
  intros [Hwf C].
  unfold DifferentiableNlp.minimize, DifferentiableNlp.cached_property_reset,
    DifferentiableNlp.on_nlp. simpl.
  pose proof (minimize_wf objective Hwf) as Hwf'.
  pose proof (minimize_same_variables objective
                (DifferentiableNlp.nlp w)) as Hs.
  destruct (Nlp.minimize objective (DifferentiableNlp.nlp w))
    as [r n']. simpl in *.
  split; [exact Hwf'|]. constructor; simpl; try congruence.
  - intros v Hv. rewrite <- (coh_h_lbx C Hv). now apply h_lbx_body_ext.
  - intros v Hv. rewrite <- (coh_h_ubx C Hv). now apply h_ubx_body_ext.
  - apply C.
Qed.

Lemma call_inv c w : inv w -> inv (call c w).
Proof.
  intros I. destruct c as [name shape lb ub|name lhs op rhs|objective|p];
    cbn [call].
  - now apply variable_inv.
  - now apply constraint_inv.
  - now apply minimize_inv.
  - destruct I as [Hwf C]. destruct p.
    + destruct (h_lbx_spec C) as (w' & -> & C' & (Hn & _)).
      split; simpl; [now rewrite Hn|assumption].
    + destruct (h_ubx_spec C) as (w' & -> & C' & (Hn & _)).
      split; simpl; [now rewrite Hn|assumption].
    + destruct (lagrangian_spec C) as (w' & -> & C' & (Hn & _)).
      split; simpl; [now rewrite Hn|assumption].
    + rewrite (primal_dual_variables_spec C). now split.
Qed.

Lemma calls_inv cs w : inv w -> inv (calls cs w).
Proof.
  revert w. induction cs as [|c cs IH]; simpl; intros w I; auto.
  apply IH, call_inv, I.
Qed.

(** The flags of an instance are written by [__init__] only. *)
Lemma call_flags c w :
  inv w ->
  simplify_flag (call c w) = simplify_flag w /\
  DifferentiableNlp.include_barrier_term (call c w) =
  DifferentiableNlp.include_barrier_term w.
Proof.
  intros [_ C].
  destruct c as [name shape lb ub|name lhs op rhs|objective|p]; cbn [call].
  - unfold DifferentiableNlp.variable, DifferentiableNlp.cached_property_reset,
      DifferentiableNlp.on_nlp. simpl.
    destruct (Nlp.variable _ _ _ _ _); simpl; auto.
  - unfold DifferentiableNlp.constraint,
      DifferentiableNlp.cached_property_reset, DifferentiableNlp.on_nlp.
    simpl. destruct (Nlp.constraint _ _ _ _ _); simpl; auto.
  - unfold DifferentiableNlp.minimize, DifferentiableNlp.cached_property_reset,
      DifferentiableNlp.on_nlp. simpl.
    destruct (Nlp.minimize _ _); simpl; auto.
  - destruct p.
    + destruct (h_lbx_spec C) as (w' & -> & _ & (_ & H)). exact H.
    + destruct (h_ubx_spec C) as (w' & -> & _ & (_ & H)). exact H.
    + destruct (lagrangian_spec C) as (w' & -> & _ & (_ & H)). exact H.
    + rewrite (primal_dual_variables_spec C). auto.
Qed.

Lemma calls_flags cs w :
  inv w ->
  simplify_flag (calls cs w) = simplify_flag w /\
  DifferentiableNlp.include_barrier_term (calls cs w) =
  DifferentiableNlp.include_barrier_term w.
Proof.
  revert w. induction cs as [|c cs IH]; simpl; intros w I; auto.
  destruct (IH (call c w) (call_inv c I)) as [-> ->].
  now apply call_flags.
Qed.

(* ================================================================== *)
(** * The bound terms row by row *)

(** The index list that a bound term is read at. *)
Definition retained (simplify : bool) (bounds : list float) (inf : float)
           (nx : nat) : list nat :=
  if simplify then DifferentiableNlp.np_where_ne bounds inf
  else DifferentiableNlp.np_arange nx.

Lemma np_where_ne_In a c i :
  In i (DifferentiableNlp.np_where_ne a c) <->
  exists v, nth_error a i = Some v /\ PrimFloat.eqb v c = false.
Proof.
  unfold DifferentiableNlp.np_where_ne. rewrite filter_In, in_seq. split.
  - intros [_ H]. destruct (nth_error a i) as [v|]; [|discriminate].
    exists v. split; [reflexivity|]. now apply negb_true_iff.
  - intros (v & Hv & Hc). split.
    + assert (i < length a) by (apply nth_error_Some; congruence). lia.
    + rewrite Hv. now apply negb_true_iff.
Qed.

Lemma seq_StronglySorted k m : StronglySorted lt (seq k m).
Proof.
  revert k. induction m as [|m IH]; simpl; intros k; constructor; auto.
  apply Forall_forall. intros i Hi. apply in_seq in Hi. lia.
Qed.

Lemma filter_StronglySorted {A} (R : A -> A -> Prop) f l :
  StronglySorted R l -> StronglySorted R (filter f l).
Proof.
  induction 1 as [|a l Hs IH Ha]; simpl; [constructor|].
  destruct (f a); [|assumption]. constructor; [assumption|].
  rewrite Forall_forall in *. intros x Hx. apply filter_In in Hx.
  apply Ha, Hx.
Qed.

Lemma np_where_ne_sorted a c :
  StronglySorted lt (DifferentiableNlp.np_where_ne a c).
Proof. apply filter_StronglySorted, seq_StronglySorted. Qed.

Lemma retained_in_range simplify bounds inf nx :
  length bounds = nx ->
  Forall (fun i => i < nx) (retained simplify bounds inf nx).
Proof.
  intros H. apply Forall_forall. intros i Hi. destruct simplify; simpl in Hi.
  - apply np_where_ne_In in Hi. destruct Hi as (v & Hv & _).
    rewrite <- H. apply nth_error_Some. congruence.
  - apply in_seq in Hi. lia.
Qed.

Lemma Forall2_seq_nth {A} (R : nat -> A -> Prop) k m l :
  Forall2 R (seq k m) l ->
  forall i, i < m -> exists e, nth_error l i = Some e /\ R (k + i) e.
Proof.
  revert k l. induction m as [|m IH]; simpl; intros k l H i Hi; [lia|].
  inversion H as [|j e idx l' Hj Hrest]; subst.
  destruct i as [|i]; simpl.
  - exists e. now rewrite Nat.add_0_r.
  - destruct (IH (S k) l' Hrest i) as (e' & He' & HR); [lia|].
    exists e'. split; [assumption|]. now rewrite Nat.add_succ_r.
Qed.

Lemma Forall_lt_eq idx a b :
  a = b -> Forall (fun i => i < a) idx -> Forall (fun i => i < b) idx.
Proof. now intros ->. Qed.

Lemma retained_length simplify bounds inf nx :
  length bounds = nx -> length (retained simplify bounds inf nx) <= nx.
Proof.
  intros H. destruct simplify; simpl.
  - unfold DifferentiableNlp.np_where_ne.
    etransitivity; [apply filter_length_le|]. rewrite length_seq. lia.
  - unfold DifferentiableNlp.np_arange. rewrite length_seq. lia.
Qed.

(** In full mode the subtraction is never refused. *)
Lemma degenerate_full bounds inf nx :
  degenerate nx (length (retained false bounds inf nx)) = false.
Proof.
  simpl. unfold DifferentiableNlp.np_arange, degenerate.
  rewrite length_seq. destruct nx as [|[|nx]]; reflexivity.
Qed.


(** The matrices of [h_lbx] on a well-formed NLP: the subtraction of
    line 59 is refused in the degenerate case; in every other case the two
    matrices are columns, with one row [lbx[i] - x[i]] and one multiplier
    [lam_lbx[i]] per index read, in the order of the indices. *)
Lemma h_lbx_matrices_rows w :
  Nlp_wf (DifferentiableNlp.nlp w) ->
  let n := DifferentiableNlp.nlp w in
  let idx := retained (simplify_flag w) (Nlp._lbx n) neg_infinity (Nlp.nx n) in
  if degenerate (Nlp.nx n) (length idx)
  then DifferentiableNlp.h_lbx_matrices w = Raise BackendError
  else
    exists h lam,
      DifferentiableNlp.h_lbx_matrices w = Ok (h, lam) /\
      column h /\ column lam /\
      Forall2 (fun i e => exists b xi,
                   nth_error (Nlp._lbx n) i = Some b /\
                   nth_error (Nlp._x n) i = Some xi /\
                   e = Sub (Const b) xi) idx (elems h) /\
      Forall2 (fun i l => nth_error (Nlp._lam_lbx n) i = Some l)
              idx (elems lam).
Proof.
  intros Hwf n idx.
  assert (Hr : Forall (fun i => i < Nlp.nx n) idx)
    by (apply retained_in_range, Hwf).
  assert (Hk : length idx <= Nlp.nx n) by (apply retained_length, Hwf).
  unfold DifferentiableNlp.h_lbx_matrices.
  fold n. change (if simplify_flag w then _ else _) with idx.
  destruct (@np_take_total _ (Nlp._lbx n) idx) as [lb Hlb];
    [exact (Forall_lt_eq (eq_sym (wf_lbx Hwf)) Hr)|].
  destruct (@sx_take_total (Nlp._x n) idx) as [xs Hxs]; [exact Hr|].
  destruct (@sx_take_total (Nlp._lam_lbx n) idx) as [lam Hlam];
    [exact (Forall_lt_eq (eq_sym (wf_lam_lbx Hwf)) Hr)|].
  rewrite Hlb, Hxs. simpl.
  apply np_take_Forall2 in Hlb.
  apply sx_take_Forall2 in Hxs. destruct Hxs as [Hxs Sx].
  pose proof Hlam as Fl. apply sx_take_Forall2 in Fl. destruct Fl as [Fl Sl].
  pose proof (Forall2_length_eq Hlb) as L1.
  pose proof (Forall2_length_eq Hxs) as L2.
  pose proof (Forall2_length_eq Fl) as L3.
  pose proof (wf_lam_lbx Hwf) as Wl. fold n in Wl. rewrite Wl in Sl.
  fold (Nlp.nx n) in Sx, Sl. rewrite L1 in Sx, Sl, Hk |- *.
  pose proof (@np_sub_sx_taken lb xs (Nlp.nx n) (eq_trans (eq_sym L2) L1) Sx Hk)
    as T.
  destruct (degenerate (Nlp.nx n) (length lb)) eqn:D.
  - now rewrite T.
  - destruct T as (h & -> & Eh & Rh & Ch). simpl. rewrite Hlam. simpl.
    rewrite (take_shape_column Hk D) in Sl. inversion Sl as [[Rl Cl]].
    exists h, lam. split; [reflexivity|].
    split; [split; [|exact Ch]|].
    { rewrite Rh, Eh. unfold lb_minus_x.
      rewrite length_map, length_combine. lia. }
    split; [split; [congruence|exact Cl]|]. split.
    + rewrite Eh. now apply lb_minus_x_Forall2.
    + assumption.
Qed.

Lemma h_ubx_matrices_rows w :
  Nlp_wf (DifferentiableNlp.nlp w) ->
  let n := DifferentiableNlp.nlp w in
  let idx := retained (simplify_flag w) (Nlp._ubx n) infinity (Nlp.nx n) in
  if degenerate (Nlp.nx n) (length idx)
  then DifferentiableNlp.h_ubx_matrices w = Raise BackendError
  else
    exists h lam,
      DifferentiableNlp.h_ubx_matrices w = Ok (h, lam) /\
      column h /\ column lam /\
      Forall2 (fun i e => exists b xi,
                   nth_error (Nlp._ubx n) i = Some b /\
                   nth_error (Nlp._x n) i = Some xi /\
                   e = Sub xi (Const b)) idx (elems h) /\
      Forall2 (fun i l => nth_error (Nlp._lam_ubx n) i = Some l)
              idx (elems lam).
Proof.
  intros Hwf n idx.
  assert (Hr : Forall (fun i => i < Nlp.nx n) idx)
    by (apply retained_in_range, Hwf).
  assert (Hk : length idx <= Nlp.nx n) by (apply retained_length, Hwf).
  unfold DifferentiableNlp.h_ubx_matrices.
  fold n. change (if simplify_flag w then _ else _) with idx.
  destruct (@np_take_total _ (Nlp._ubx n) idx) as [ub Hub];
    [exact (Forall_lt_eq (eq_sym (wf_ubx Hwf)) Hr)|].
  destruct (@sx_take_total (Nlp._x n) idx) as [xs Hxs]; [exact Hr|].
  destruct (@sx_take_total (Nlp._lam_ubx n) idx) as [lam Hlam];
    [exact (Forall_lt_eq (eq_sym (wf_lam_ubx Hwf)) Hr)|].
  rewrite Hxs. simpl. rewrite Hub. simpl.
  apply np_take_Forall2 in Hub.
  apply sx_take_Forall2 in Hxs. destruct Hxs as [Hxs Sx].
  pose proof Hlam as Fl. apply sx_take_Forall2 in Fl. destruct Fl as [Fl Sl].
  pose proof (Forall2_length_eq Hub) as L1.
  pose proof (Forall2_length_eq Hxs) as L2.
  pose proof (Forall2_length_eq Fl) as L3.
  pose proof (wf_lam_ubx Hwf) as Wl. fold n in Wl. rewrite Wl in Sl.
  fold (Nlp.nx n) in Sx, Sl. rewrite L1 in Sx, Sl, Hk |- *.
  pose proof (@sx_sub_np_taken xs ub (Nlp.nx n) (eq_trans (eq_sym L2) L1) Sx Hk)
    as T.
  destruct (degenerate (Nlp.nx n) (length ub)) eqn:D.
  - now rewrite T.
  - destruct T as (h & -> & Eh & Rh & Ch). simpl. rewrite Hlam. simpl.
    rewrite (take_shape_column Hk D) in Sl. inversion Sl as [[Rl Cl]].
    exists h, lam. split; [reflexivity|].
    split; [split; [|exact Ch]|].
    { rewrite Rh, Eh. unfold x_minus_ub.
      rewrite length_map, length_combine. lia. }
    split; [split; [congruence|exact Cl]|]. split.
    + rewrite Eh. now apply x_minus_ub_Forall2.
    + assumption.
Qed.

(** The rows of [h_lbx] and of [h_ubx], as the properties return
    them. *)
Lemma h_lbx_body_rows w :
  Nlp_wf (DifferentiableNlp.nlp w) ->
  let n := DifferentiableNlp.nlp w in
  let idx := retained (simplify_flag w) (Nlp._lbx n) neg_infinity (Nlp.nx n) in
  if degenerate (Nlp.nx n) (length idx)
  then DifferentiableNlp.h_lbx_body w = Raise BackendError
  else
    exists h lam,
      DifferentiableNlp.h_lbx_body w = Ok (h, lam) /\
      Forall2 (fun i e => exists b xi,
                   nth_error (Nlp._lbx n) i = Some b /\
                   nth_error (Nlp._x n) i = Some xi /\
                   e = Sub (Const b) xi) idx h /\
      Forall2 (fun i l => nth_error (Nlp._lam_lbx n) i = Some l) idx lam.
Proof.
  intros Hwf n idx. pose proof (h_lbx_matrices_rows w Hwf) as R.
  cbv zeta in R. fold n in R. fold idx in R.
  unfold DifferentiableNlp.h_lbx_body.
  destruct (degenerate (Nlp.nx n) (length idx)).
  - now rewrite R.
  - destruct R as (h & lam & -> & _ & _ & Hh & Hl). simpl. eauto.
Qed.

Lemma h_ubx_body_rows w :
  Nlp_wf (DifferentiableNlp.nlp w) ->
  let n := DifferentiableNlp.nlp w in
  let idx := retained (simplify_flag w) (Nlp._ubx n) infinity (Nlp.nx n) in
  if degenerate (Nlp.nx n) (length idx)
  then DifferentiableNlp.h_ubx_body w = Raise BackendError
  else
    exists h lam,
      DifferentiableNlp.h_ubx_body w = Ok (h, lam) /\
      Forall2 (fun i e => exists b xi,
                   nth_error (Nlp._ubx n) i = Some b /\
                   nth_error (Nlp._x n) i = Some xi /\
                   e = Sub xi (Const b)) idx h /\
      Forall2 (fun i l => nth_error (Nlp._lam_ubx n) i = Some l) idx lam.
Proof.
  intros Hwf n idx. pose proof (h_ubx_matrices_rows w Hwf) as R.
  cbv zeta in R. fold n in R. fold idx in R.
  unfold DifferentiableNlp.h_ubx_body.
  destruct (degenerate (Nlp.nx n) (length idx)).
  - now rewrite R.
  - destruct R as (h & lam & -> & _ & _ & Hh & Hl). simpl. eauto.
Qed.

(** Whenever the bound terms are returned, the four matrices are
    columns: the pair of their entries is the pair itself. *)
Lemma bound_terms_are_columns w :
  Nlp_wf (DifferentiableNlp.nlp w) ->
  (forall h lam, DifferentiableNlp.h_lbx_matrices w = Ok (h, lam) ->
                 column h /\ column lam) /\
  (forall h lam, DifferentiableNlp.h_ubx_matrices w = Ok (h, lam) ->
                 column h /\ column lam).
Proof.
  intros Hwf.
  pose proof (h_lbx_matrices_rows w Hwf) as Rl.
  pose proof (h_ubx_matrices_rows w Hwf) as Ru. cbv zeta in Rl, Ru.
  split; intros h lam E.
  - destruct (degenerate _ _) in Rl; [congruence|].
    destruct Rl as (h' & lam' & E' & Ch & Cl & _).
    rewrite E in E'. inversion E'; subst. auto.
  - destruct (degenerate _ _) in Ru; [congruence|].
    destruct Ru as (h' & lam' & E' & Ch & Cl & _).
    rewrite E in E'. inversion E'; subst. auto.
Qed.

(** ** Wrappers reached through the public methods *)

(** An NLP built by any calls, wrapped, and used through the wrapper. *)
Definition reached (ncs : list NlpCall) (simplify barrier : bool)
           (cs : list Call) : Wrapper :=
  calls cs (DifferentiableNlp.__init__ (nlp_calls ncs Nlp.init)
                                       simplify barrier).

Lemma reached_inv ncs s b cs : inv (reached ncs s b cs).
Proof. apply calls_inv, init_inv, nlp_calls_wf, init_wf. Qed.

Lemma reached_simplify_flag ncs s b cs :
  simplify_flag (reached ncs s b cs) = s.
Proof.
  unfold reached.
  destruct (calls_flags cs (init_inv s b (nlp_calls_wf ncs init_wf)))
    as [-> _]. reflexivity.
Qed.

Lemma reached_h_lbx ncs s b cs :
  fst (DifferentiableNlp.h_lbx (reached ncs s b cs)) =
  DifferentiableNlp.h_lbx_body (reached ncs s b cs).
Proof.
  destruct (reached_inv ncs s b cs) as [_ C].
  destruct (h_lbx_spec C) as (w' & -> & _). reflexivity.
Qed.

Lemma reached_h_ubx ncs s b cs :
  fst (DifferentiableNlp.h_ubx (reached ncs s b cs)) =
  DifferentiableNlp.h_ubx_body (reached ncs s b cs).
Proof.
  destruct (reached_inv ncs s b cs) as [_ C].
  destruct (h_ubx_spec C) as (w' & -> & _). reflexivity.
Qed.

Lemma reached_lagrangian ncs s b cs :
  fst (DifferentiableNlp.lagrangian (reached ncs s b cs)) =
  lagrangian_of (reached ncs s b cs).
Proof.
  destruct (reached_inv ncs s b cs) as [_ C].
  destruct (lagrangian_spec C) as (w' & -> & _). reflexivity.
Qed.

(** Row [i] of a bound term. *)
Definition lower_row (n : Nlp.t) (i : nat) (e : SX) : Prop :=
  exists lb xi,
    nth_error (Nlp._lbx n) i = Some lb /\
    nth_error (Nlp._x n) i = Some xi /\
    e = Sub (Const lb) xi.

Definition upper_row (n : Nlp.t) (i : nat) (e : SX) : Prop :=
  exists ub xi,
    nth_error (Nlp._ubx n) i = Some ub /\
    nth_error (Nlp._x n) i = Some xi /\
    e = Sub xi (Const ub).

(* ================================================================== *)
(** * The claims about the bound terms and the Lagrangian *)

(** C2. On every wrapper reached through the public methods whose NLP has
    the scalar objective [f], the property [lagrangian] raises the error
    of the backend when [h_lbx] or [h_ubx] does, which is when [x] has one
    entry and no bound of that side is retained; in every other case it
    succeeds with [f + dot(lam_g, g) + dot(lam_h, h) +
    dot(lam_lbx', h_lbx) + dot(lam_ubx', h_ubx)], where
    [(h_lbx, lam_lbx')] and [(h_ubx, lam_ubx')] are the pairs that the
    properties [h_lbx] and [h_ubx] return on the same instance. *)
Theorem lagrangian_is_objective_plus_weighted_constraints
        (ncs : list NlpCall) (s b : bool) (cs : list Call) (f : SX) :
  let w := reached ncs s b cs in
  let n := DifferentiableNlp.nlp w in
  Nlp._f n = Some f ->
  if degenerate (Nlp.nx n)
       (length (retained s (Nlp._lbx n) neg_infinity (Nlp.nx n)))
     || degenerate (Nlp.nx n)
          (length (retained s (Nlp._ubx n) infinity (Nlp.nx n)))
  then fst (DifferentiableNlp.lagrangian w) = Raise BackendError
  else
    exists h_l lam_l h_u lam_u,
      fst (DifferentiableNlp.h_lbx w) = Ok (h_l, lam_l) /\
      fst (DifferentiableNlp.h_ubx w) = Ok (h_u, lam_u) /\
      fst (DifferentiableNlp.lagrangian w) =
      Ok (Add (Add (Add (Add f (dot_sum (Nlp._lam_g n) (Nlp._g n)))
                        (dot_sum (Nlp._lam_h n) (Nlp._h n)))
                   (dot_sum lam_l h_l))
              (dot_sum lam_u h_u)).
Proof.
  intros w n Hf. subst n.
  destruct (reached_inv ncs s b cs) as [Hwf _]. fold w in Hwf.
  pose proof (reached_h_lbx ncs s b cs) as E1.
  pose proof (reached_h_ubx ncs s b cs) as E2.
  pose proof (reached_lagrangian ncs s b cs) as E3.
  fold w in E1, E2, E3. rewrite E1, E2, E3. clear E1 E2 E3.
  unfold lagrangian_of.
  pose proof (h_lbx_body_rows w Hwf) as Rl.
  pose proof (h_ubx_body_rows w Hwf) as Ru.
  cbv zeta in Rl, Ru. unfold w in Rl, Ru.
  rewrite reached_simplify_flag in Rl, Ru. fold w in Rl, Ru.
  destruct (degenerate _ (length (retained s (Nlp._lbx _) _ _))).
  { simpl. now rewrite Rl. }
  destruct Rl as (hl & ll & -> & Hh & Hl).
  destruct (degenerate _ (length (retained s (Nlp._ubx _) _ _))).
  { simpl. now rewrite Ru. }
  destruct Ru as (hu & lu & -> & Hhu & Hlu).
  exists hl, ll, hu, lu. split; [reflexivity|]. split; [reflexivity|].
  simpl. unfold dot.
  rewrite (wf_lam_g Hwf), (wf_lam_h Hwf), !Nat.eqb_refl. simpl.
  rewrite Hf. simpl.
  apply Forall2_length_eq in Hh, Hl, Hhu, Hlu.
  replace (length ll) with (length hl) by congruence.
  replace (length lu) with (length hu) by congruence.
  now rewrite !Nat.eqb_refl.
Qed.

(** C3. In simplify mode, on every wrapper reached through the public
    methods, the retained indices of [h_lbx] are the indices [i] with
    [lbx[i] != -inf], in increasing order.  If [x] has one entry and no
    index is retained, [h_lbx] raises the error of the backend, where the
    claim has the pair without rows; in every other case [h_lbx] has
    exactly one row for every retained index, in this order, the row
    being [lbx[i] - x[i]], and its multiplier vector has the entries
    [lam_lbx[i]] at the same indices.  Likewise [h_ubx], with the indices
    [i] with [ubx[i] != +inf], the rows [x[i] - ubx[i]] and the
    multipliers [lam_ubx[i]]. *)
Theorem simplify_mode_retains_the_finite_bounds
        (ncs : list NlpCall) (b : bool) (cs : list Call) :
  let w := reached ncs true b cs in
  let n := DifferentiableNlp.nlp w in
  exists idx_l idx_u,
    StronglySorted lt idx_l /\
    (forall i, In i idx_l <->
               exists v, nth_error (Nlp._lbx n) i = Some v /\
                         PrimFloat.eqb v neg_infinity = false) /\
    StronglySorted lt idx_u /\
    (forall i, In i idx_u <->
               exists v, nth_error (Nlp._ubx n) i = Some v /\
                         PrimFloat.eqb v infinity = false) /\
    (if degenerate (Nlp.nx n) (length idx_l)
     then fst (DifferentiableNlp.h_lbx w) = Raise BackendError
     else
       exists h_l lam_l,
         fst (DifferentiableNlp.h_lbx w) = Ok (h_l, lam_l) /\
         Forall2 (lower_row n) idx_l h_l /\
         Forall2 (fun i l => nth_error (Nlp._lam_lbx n) i = Some l)
                 idx_l lam_l) /\
    (if degenerate (Nlp.nx n) (length idx_u)
     then fst (DifferentiableNlp.h_ubx w) = Raise BackendError
     else
       exists h_u lam_u,
         fst (DifferentiableNlp.h_ubx w) = Ok (h_u, lam_u) /\
         Forall2 (upper_row n) idx_u h_u /\
         Forall2 (fun i l => nth_error (Nlp._lam_ubx n) i = Some l)
                 idx_u lam_u).
Proof.
  intros w n. subst n.
  destruct (reached_inv ncs true b cs) as [Hwf _]. fold w in Hwf.
  pose proof (reached_h_lbx ncs true b cs) as E1.
  pose proof (reached_h_ubx ncs true b cs) as E2.
  fold w in E1, E2. rewrite E1, E2. clear E1 E2.
  pose proof (h_lbx_body_rows w Hwf) as Rl.
  pose proof (h_ubx_body_rows w Hwf) as Ru.
  cbv zeta in Rl, Ru. unfold w in Rl, Ru.
  rewrite reached_simplify_flag in Rl, Ru. fold w in Rl, Ru.
  simpl retained in Rl, Ru.
  exists (DifferentiableNlp.np_where_ne
            (Nlp._lbx (DifferentiableNlp.nlp w)) neg_infinity),
         (DifferentiableNlp.np_where_ne
            (Nlp._ubx (DifferentiableNlp.nlp w)) infinity).
  split; [apply np_where_ne_sorted|].
  split; [intros i; apply np_where_ne_In|].
  split; [apply np_where_ne_sorted|].
  split; [intros i; apply np_where_ne_In|].
  split; assumption.
Qed.

Lemma Forall2_all_indices {A} (v l : list A) :
  Forall2 (fun i a => nth_error v i = Some a) (seq 0 (length v)) l -> l = v.
Proof.
  intros H. rewrite <- (Nat.sub_0_r (length v)) in H.
  now apply Forall2_seq_nth_error in H.
Qed.

(** C4. In full mode, on every wrapper reached through the public
    methods, [h_lbx] and [h_ubx] have one row for every entry of [x],
    whatever the bounds are: as many rows as the shapes of the declared
    variables give, with the whole multiplier vectors; row [i] of [h_lbx]
    is [lbx[i] - x[i]] and evaluates, under every assignment that gives
    [x[i]] the value [v], to the binary64 difference [lbx[i] - v] (and row
    [i] of [h_ubx] to [v - ubx[i]]). *)
Theorem full_mode_keeps_every_row
        (ncs : list NlpCall) (b : bool) (cs : list Call) :
  let w := reached ncs false b cs in
  let n := DifferentiableNlp.nlp w in
  exists h_l h_u,
    fst (DifferentiableNlp.h_lbx w) = Ok (h_l, Nlp._lam_lbx n) /\
    fst (DifferentiableNlp.h_ubx w) = Ok (h_u, Nlp._lam_ubx n) /\
    length h_l = declared_rows n /\
    length h_u = declared_rows n /\
    forall i, i < declared_rows n ->
      exists lb ub xi e_l e_u,
        nth_error (Nlp._lbx n) i = Some lb /\
        nth_error (Nlp._ubx n) i = Some ub /\
        nth_error (Nlp._x n) i = Some xi /\
        nth_error h_l i = Some e_l /\
        nth_error h_u i = Some e_u /\
        e_l = Sub (Const lb) xi /\
        e_u = Sub xi (Const ub) /\
        forall env v, evalf env xi = Some v ->
          evalf env e_l = Some (PrimFloat.sub lb v) /\
          evalf env e_u = Some (PrimFloat.sub v ub).
Proof.
  intros w n. subst n.
  destruct (reached_inv ncs false b cs) as [Hwf _]. fold w in Hwf.
  pose proof (reached_h_lbx ncs false b cs) as E1.
  pose proof (reached_h_ubx ncs false b cs) as E2.
  fold w in E1, E2. rewrite E1, E2. clear E1 E2.
  pose proof (h_lbx_body_rows w Hwf) as Rl.
  pose proof (h_ubx_body_rows w Hwf) as Ru.
  cbv zeta in Rl, Ru. unfold w in Rl, Ru.
  rewrite reached_simplify_flag in Rl, Ru. fold w in Rl, Ru.
  rewrite degenerate_full in Rl, Ru.
  destruct Rl as (hl & ll & -> & Hh & Hl).
  destruct Ru as (hu & lu & -> & Hhu & Hlu).
  cbn [retained] in *. unfold DifferentiableNlp.np_arange, Nlp.nx in *.
  assert (ll = Nlp._lam_lbx (DifferentiableNlp.nlp w)) as ->
      by (apply Forall2_all_indices; now rewrite (wf_lam_lbx Hwf)).
  assert (lu = Nlp._lam_ubx (DifferentiableNlp.nlp w)) as ->
      by (apply Forall2_all_indices; now rewrite (wf_lam_ubx Hwf)).
  exists hl, hu. split; [reflexivity|]. split; [reflexivity|].
  pose proof (Forall2_length_eq Hh) as Lh.
  pose proof (Forall2_length_eq Hhu) as Lhu.
  rewrite length_seq in Lh, Lhu. rewrite <- (wf_rows Hwf).
  split; [congruence|]. split; [congruence|].
  intros i Hi.
  destruct (@Forall2_seq_nth _ _ _ _ _ Hh i Hi) as (el & Hel & lb & xi & Hlb & Hxi & ->).
  destruct (@Forall2_seq_nth _ _ _ _ _ Hhu i Hi) as (eu & Heu & ub & xi' & Hub & Hxi' & ->).
  simpl in *. assert (xi' = xi) as -> by congruence.
  exists lb, ub, xi, (Sub (Const lb) xi), (Sub xi (Const ub)).
  repeat (split; [assumption || reflexivity|]).
  intros env v Hv. simpl. now rewrite Hv.
Qed.

(* ================================================================== *)
(** * The primal-dual vector *)

(** What the loop of [primal_dual_variables] collects when it is run over
    the list [PRIMAL_DUAL_ORDER] that the module does define, on an
    instance on which [h_lbx] and [h_ubx] return: the blocks [x],
    [lam_g], [lam_h], [lam_lbx'], [lam_ubx'], in this order. *)
Lemma primal_dual_args_over_the_defined_order w h_l lam_l h_u lam_u :
  inv w ->
  DifferentiableNlp.h_lbx_body w = Ok (h_l, lam_l) ->
  DifferentiableNlp.h_ubx_body w = Ok (h_u, lam_u) ->
  exists w',
    DifferentiableNlp.primal_dual_args ["x"; "g"; "h"; "h_lbx"; "h_ubx"] w =
    (Ok [Nlp._x (DifferentiableNlp.nlp w);
         Nlp._lam_g (DifferentiableNlp.nlp w);
         Nlp._lam_h (DifferentiableNlp.nlp w);
         lam_l; lam_u], w').
Proof.
  intros [Hwf C] Hl Hu.
  destruct (h_lbx_spec C) as (w1 & E1 & C1 & S1).
  destruct (h_ubx_spec C1) as (w2 & E2 & C2 & S2).
  rewrite (h_ubx_body_ext w w1) in E2
    by (try apply same_instance_variables; apply S1).
  rewrite Hl in E1. rewrite Hu in E2.
  exists w2.
  cbn [DifferentiableNlp.primal_dual_args String.eqb Ascii.eqb Bool.eqb].
  unfold DifferentiableNlp.bind, DifferentiableNlp.attr, DifferentiableNlp.ret.
  rewrite E1, E2. reflexivity.
Qed.

(** C1. The property [primal_dual_variables] never returns the
    concatenation: its loop reads the global [_PRIMAL_DUAL_ORDER], which
    the module does not bind (it binds [PRIMAL_DUAL_ORDER]), so on every
    wrapper reached through the public methods the access raises
    [NameError]. *)
Theorem primal_dual_variables_raises_NameError
        (ncs : list NlpCall) (s b : bool) (cs : list Call) :
  fst (DifferentiableNlp.primal_dual_variables (reached ncs s b cs)) =
  Raise (NameError "_PRIMAL_DUAL_ORDER").
Proof.
  destruct (reached_inv ncs s b cs) as [_ C].
  now rewrite (primal_dual_variables_spec C).
Qed.

(* ================================================================== *)
(** * Cache invalidation *)

Lemma variable_cache name shape lb ub w :
  let w' := snd (DifferentiableNlp.variable name shape lb ub w) in
  DifferentiableNlp.cached_h_lbx w' = None /\
  DifferentiableNlp.cached_h_ubx w' = None /\
  DifferentiableNlp.cached_lagrangian w' = None /\
  DifferentiableNlp.cached_primal_dual_variables w' = None.
Proof.
  unfold DifferentiableNlp.variable, DifferentiableNlp.cached_property_reset,
    DifferentiableNlp.on_nlp. simpl.
  destruct (Nlp.variable name shape lb ub (DifferentiableNlp.nlp w)).
  simpl. auto.
Qed.

Lemma constraint_cache name lhs op rhs w :
  let w' := snd (DifferentiableNlp.constraint name lhs op rhs w) in
  DifferentiableNlp.cached_lagrangian w' = None /\
  DifferentiableNlp.cached_primal_dual_variables w' = None /\
  DifferentiableNlp.cached_h_lbx w' = DifferentiableNlp.cached_h_lbx w /\
  DifferentiableNlp.cached_h_ubx w' = DifferentiableNlp.cached_h_ubx w.
Proof.
  unfold DifferentiableNlp.constraint,
    DifferentiableNlp.cached_property_reset, DifferentiableNlp.on_nlp.
  simpl.
  destruct (Nlp.constraint name lhs op rhs (DifferentiableNlp.nlp w)).
  simpl. auto.
Qed.

Lemma minimize_cache objective w :
  let w' := snd (DifferentiableNlp.minimize objective w) in
  DifferentiableNlp.cached_lagrangian w' = None /\
  DifferentiableNlp.cached_h_lbx w' = DifferentiableNlp.cached_h_lbx w /\
  DifferentiableNlp.cached_h_ubx w' = DifferentiableNlp.cached_h_ubx w /\
  DifferentiableNlp.cached_primal_dual_variables w' =
  DifferentiableNlp.cached_primal_dual_variables w.
Proof.
  unfold DifferentiableNlp.minimize, DifferentiableNlp.cached_property_reset,
    DifferentiableNlp.on_nlp. simpl.
  destruct (Nlp.minimize objective (DifferentiableNlp.nlp w)).
  simpl. auto.
Qed.

(** C6. A declaration through the wrapper invalidates exactly the cached
    values that its decorator lists: [variable] all four; [constraint]
    the Lagrangian and the primal-dual vector, the cached [h_lbx] and
    [h_ubx] staying as they are; [minimize] the Lagrangian only, the
    cached [h_lbx], [h_ubx] and primal-dual vector staying as they are. *)
Theorem cache_invalidation_is_fine_grained (w : Wrapper) :
  (forall name shape lb ub,
      let w' := snd (DifferentiableNlp.variable name shape lb ub w) in
      DifferentiableNlp.cached_h_lbx w' = None /\
      DifferentiableNlp.cached_h_ubx w' = None /\
      DifferentiableNlp.cached_lagrangian w' = None /\
      DifferentiableNlp.cached_primal_dual_variables w' = None) /\
  (forall name lhs op rhs,
      let w' := snd (DifferentiableNlp.constraint name lhs op rhs w) in
      DifferentiableNlp.cached_lagrangian w' = None /\
      DifferentiableNlp.cached_primal_dual_variables w' = None /\
      DifferentiableNlp.cached_h_lbx w' = DifferentiableNlp.cached_h_lbx w /\
      DifferentiableNlp.cached_h_ubx w' = DifferentiableNlp.cached_h_ubx w) /\
  (forall objective,
      let w' := snd (DifferentiableNlp.minimize objective w) in
      DifferentiableNlp.cached_lagrangian w' = None /\
      DifferentiableNlp.cached_h_lbx w' = DifferentiableNlp.cached_h_lbx w /\
      DifferentiableNlp.cached_h_ubx w' = DifferentiableNlp.cached_h_ubx w /\
      DifferentiableNlp.cached_primal_dual_variables w' =
      DifferentiableNlp.cached_primal_dual_variables w).
Proof.
  split; [|split].
  - intros name shape lb ub. apply variable_cache.
  - intros name lhs op rhs. apply constraint_cache.
  - intros objective. apply minimize_cache.
Qed.

(* ================================================================== *)
(** * Delegation to the wrapped NLP *)

(** C10. The three methods of the wrapper return what the method of the
    same name of the wrapped NLP returns on the same arguments, value or
    exception, and leave the wrapped NLP in the state that this method
    leaves it in; the flags of the wrapper are not touched. *)
Theorem wrapper_methods_delegate (w : Wrapper) :
  let n := DifferentiableNlp.nlp w in
  (forall name shape lb ub,
      let r := DifferentiableNlp.variable name shape lb ub w in
      fst r = fst (Nlp.variable name shape lb ub n) /\
      DifferentiableNlp.nlp (snd r) = snd (Nlp.variable name shape lb ub n) /\
      simplify_flag (snd r) = simplify_flag w /\
      DifferentiableNlp.include_barrier_term (snd r) =
      DifferentiableNlp.include_barrier_term w) /\
  (forall name lhs op rhs,
      let r := DifferentiableNlp.constraint name lhs op rhs w in
      fst r = fst (Nlp.constraint name lhs op rhs n) /\
      DifferentiableNlp.nlp (snd r) = snd (Nlp.constraint name lhs op rhs n) /\
      simplify_flag (snd r) = simplify_flag w /\
      DifferentiableNlp.include_barrier_term (snd r) =
      DifferentiableNlp.include_barrier_term w) /\
  (forall objective,
      let r := DifferentiableNlp.minimize objective w in
      fst r = fst (Nlp.minimize objective n) /\
      DifferentiableNlp.nlp (snd r) = snd (Nlp.minimize objective n) /\
      simplify_flag (snd r) = simplify_flag w /\
      DifferentiableNlp.include_barrier_term (snd r) =
      DifferentiableNlp.include_barrier_term w).
Proof.
  intros n. subst n. split; [|split].
  - intros name shape lb ub.
    unfold DifferentiableNlp.variable, DifferentiableNlp.cached_property_reset,
      DifferentiableNlp.on_nlp. simpl.
    destruct (Nlp.variable name shape lb ub (DifferentiableNlp.nlp w)).
    simpl. auto.
  - intros name lhs op rhs.
    unfold DifferentiableNlp.constraint,
      DifferentiableNlp.cached_property_reset, DifferentiableNlp.on_nlp.
    simpl.
    destruct (Nlp.constraint name lhs op rhs (DifferentiableNlp.nlp w)).
    simpl. auto.
  - intros objective.
    unfold DifferentiableNlp.minimize, DifferentiableNlp.cached_property_reset,
      DifferentiableNlp.on_nlp. simpl.
    destruct (Nlp.minimize objective (DifferentiableNlp.nlp w)).
    simpl. auto.
Qed.

(* ================================================================== *)
(** * Names are unique within a kind *)

Inductive Kind : Type := KVariable | KParameter | KConstraint.

(** A declaration of an entity of one of the three kinds. *)
Inductive Declaration : Type :=
| DVariable (name : string) (shape : nat * nat) (lb ub : Nlp.Bound)
| DParameter (name : string) (shape : nat * nat)
| DConstraint (name : string) (lhs : Mat) (op : string) (rhs : Mat).

Definition kind_of (d : Declaration) : Kind :=
  match d with
  | DVariable _ _ _ _ => KVariable
  | DParameter _ _ => KParameter
  | DConstraint _ _ _ _ => KConstraint
  end.

Definition name_of (d : Declaration) : string :=
  match d with
  | DVariable name _ _ _ | DParameter name _ | DConstraint name _ _ _ => name
  end.

(** The registry of a kind. *)
Definition registry (k : Kind) (n : Nlp.t) : list (string * Mat) :=
  match k with
  | KVariable => Nlp._vars n
  | KParameter => Nlp._pars n
  | KConstraint => Nlp._cons n
  end.

(** The stacked vectors of a kind: [x]; [p]; [g] and [h]. *)
Definition stacked (k : Kind) (n : Nlp.t) : list vec :=
  match k with
  | KVariable => [Nlp._x n]
  | KParameter => [Nlp._p n]
  | KConstraint => [Nlp._g n; Nlp._h n]
  end.

Definition raised {A} (r : Result A) : option PyError :=
  match r with
  | Ok _ => None
  | Raise e => Some e
  end.

(** The exception that a declaration raises, if any, and the NLP that it
    leaves. *)
Definition declare (d : Declaration) (n : Nlp.t) : option PyError * Nlp.t :=
  match d with
  | DVariable name shape lb ub =>
      let r := Nlp.variable name shape lb ub n in (raised (fst r), snd r)
  | DParameter name shape =>
      let r := Nlp.parameter name shape n in (raised (fst r), snd r)
  | DConstraint name lhs op rhs =>
      let r := Nlp.constraint name lhs op rhs n in (raised (fst r), snd r)
  end.

(** C8. Whatever the state of the NLP, the declaration of an entity whose
    name is in the registry of its kind raises the naming conflict and
    leaves the NLP as it was: nothing is registered and the stacked
    vectors of the kind keep their lengths. *)
Theorem duplicate_name_is_refused (d : Declaration) (n : Nlp.t) :
  contains (name_of d) (registry (kind_of d) n) = true ->
  fst (declare d n) = Some (NamingConflict (name_of d)) /\
  snd (declare d n) = n /\
  registry (kind_of d) (snd (declare d n)) = registry (kind_of d) n /\
  map (@length SX) (stacked (kind_of d) (snd (declare d n))) =
  map (@length SX) (stacked (kind_of d) n).
Proof.
  destruct d as [name shape lb ub|name shape|name lhs op rhs];
    cbn [name_of kind_of registry declare]; intros H.
  - unfold Nlp.variable. rewrite H. simpl. auto.
  - unfold Nlp.parameter. rewrite H. simpl. auto.
  - unfold Nlp.constraint. rewrite H. simpl. auto.
Qed.

(* ================================================================== *)
(** * The values of a solution *)

Lemma vals_agree_with_registry {V U} (g : V -> Result U)
      (l : list (string * V)) (vals : list (string * U)) name var :
  rmapM (fun nv => (v <- g (snd nv) ;; Ok (fst nv, v))%res) l = Ok vals ->
  assoc name l = Some var ->
  exists v, assoc name vals = Some v /\ g var = Ok v.
Proof.
  revert vals. induction l as [|[k x] l IH]; simpl; intros vals H Hn;
    [discriminate|].
  destruct (g x) as [v|e] eqn:Hg; simpl in H; [|discriminate].
  destruct (rmapM _ l) as [vs|e] eqn:Hl; simpl in H; [|discriminate].
  inversion H; subst. simpl.
  destruct (String.eqb name k).
  - inversion Hn; subst. eauto.
  - now apply IH.
Qed.

(** C9. In every solution that [solve] returns, and for every name in the
    registry of variables, [vals[name]] is the value that [value] gives
    for the Symbol that the registry holds under this name. *)
Theorem vals_agree_with_value
        (solver : Solution.Solver) (pars vals0 : list (string * list float))
        (n : Nlp.t) (sol : Solution.t) (name : string) (var : Mat) :
  Solution.solve solver pars vals0 n = Ok sol ->
  assoc name (Nlp._vars n) = Some var ->
  exists v,
    assoc name (Solution.vals sol) = Some v /\
    Solution.value sol var = Ok v.
Proof.
  unfold Solution.solve. intros H Hn.
  destruct (Nlp._solver_opts n); [|discriminate].
  destruct (rmapM _ (Nlp._pars n)) as [p|e]; simpl in H; [|discriminate].
  match type of H with
  | rbind (rmapM _ _) _ = _ =>
      destruct (rmapM _ (Nlp._vars n)) as [vals|e] eqn:Hv; simpl in H;
      [|discriminate]
  end.
  inversion H; subst. unfold Solution.value. simpl.
  eapply vals_agree_with_registry; eauto.
Qed.

(* ================================================================== *)
(** * The flag [include_barrier_term] *)




Section Blind.

Context {A B : Type}.







End Blind.











(* ================================================================== *)
(** * Memoization of the bound terms *)

(** What can happen to an instance: a use through its methods and
    properties, or an assignment of its attribute
    [remove_reduntant_x_bounds]. *)
Inductive Event : Type :=
| ECall (c : Call)
| EAssignSimplify (b : bool).

Definition event (e : Event) (w : Wrapper) : Wrapper :=
  match e with
  | ECall c => call c w
  | EAssignSimplify b => DifferentiableNlp.set_remove_reduntant_x_bounds b w
  end.

Definition events (es : list Event) (w : Wrapper) : Wrapper :=
  fold_left (fun w e => event e w) es w.

Definition declares_variable (e : Event) : bool :=
  match e with
  | ECall (CVariable _ _ _ _) => true
  | _ => false
  end.

(** The bound terms held by [w] are still held by [w']. *)
Definition keeps_bound_terms (w w' : Wrapper) : Prop :=
  (forall v, DifferentiableNlp.cached_h_lbx w = Some v ->
             DifferentiableNlp.cached_h_lbx w' = Some v) /\
  (forall v, DifferentiableNlp.cached_h_ubx w = Some v ->
             DifferentiableNlp.cached_h_ubx w' = Some v).

Lemma keeps_refl w : keeps_bound_terms w w.
Proof. split; auto. Qed.

Lemma keeps_trans w1 w2 w3 :
  keeps_bound_terms w1 w2 -> keeps_bound_terms w2 w3 ->
  keeps_bound_terms w1 w3.
Proof. intros [A1 B1] [A2 B2]. split; auto. Qed.

(** A computation that drops no bound term. *)
Definition keeping {A} (m : DifferentiableNlp.M A) : Prop :=
  forall w, keeps_bound_terms w (snd (m w)).

Definition slot_keeping {A} (s : DifferentiableNlp.Slot A) : Prop :=
  forall w v, DifferentiableNlp.slot_get s w = None ->
              keeps_bound_terms w (DifferentiableNlp.slot_set s (Some v) w).

Section Keeping.

Context {A B : Type}.

Lemma keeping_ret (a : A) : keeping (DifferentiableNlp.ret a).
Proof. intros w. apply keeps_refl. Qed.

Lemma keeping_lift (r : Result A) : keeping (DifferentiableNlp.lift r).
Proof. intros w. apply keeps_refl. Qed.

Lemma keeping_bind (c : DifferentiableNlp.M A)
      (k : A -> DifferentiableNlp.M B) :
  keeping c -> (forall a, keeping (k a)) ->
  keeping (DifferentiableNlp.bind c k).
Proof.
  intros Hc Hk w. unfold DifferentiableNlp.bind.
  pose proof (Hc w) as H. destruct (c w) as [[a|e] w']; simpl in *; auto.
  eapply keeps_trans; [exact H|apply Hk].
Qed.

Lemma keeping_cached_property (s : DifferentiableNlp.Slot A)
      (fget : DifferentiableNlp.M A) :
  slot_keeping s ->
  (forall w, DifferentiableNlp.slot_get s w = None ->
             DifferentiableNlp.slot_get s (snd (fget w)) = None) ->
  keeping fget ->
  keeping (DifferentiableNlp.cached_property s fget).
Proof.
  intros Hs Hn Hf w. unfold DifferentiableNlp.cached_property.
  destruct (DifferentiableNlp.slot_get s w) eqn:E; [apply keeps_refl|].
  pose proof (Hf w) as H. pose proof (Hn w E) as N.
  destruct (fget w) as [[v|e] w']; simpl in *; auto.
  eapply keeps_trans; [exact H|now apply Hs].
Qed.

End Keeping.

Lemma keeping_attr_nlp : keeping (DifferentiableNlp.attr DifferentiableNlp.nlp).
Proof. intros w. apply keeps_refl. Qed.

Lemma keeping_h_lbx : keeping DifferentiableNlp.h_lbx.
Proof.
  apply keeping_cached_property.
  - intros w v E. simpl in E. split; simpl; intros v' Hv'; congruence.
  - intros w E. exact E.
  - intros w. apply keeps_refl.
Qed.

Lemma keeping_h_ubx : keeping DifferentiableNlp.h_ubx.
Proof.
  apply keeping_cached_property.
  - intros w v E. simpl in E. split; simpl; intros v' Hv'; congruence.
  - intros w E. exact E.
  - intros w. apply keeps_refl.
Qed.

Lemma keeping_lagrangian_body : keeping DifferentiableNlp.lagrangian_body.
Proof.
  unfold DifferentiableNlp.lagrangian_body.
  apply keeping_bind; [apply keeping_h_lbx|]. intros [hl ll].
  apply keeping_bind; [apply keeping_h_ubx|]. intros [hu lu].
  apply keeping_bind; [apply keeping_attr_nlp|]. intros n.
  repeat (apply keeping_bind; [apply keeping_lift|]; intros ?).
  apply keeping_ret.
Qed.

Lemma keeping_lagrangian : keeping DifferentiableNlp.lagrangian.
Proof.
  intros w. unfold DifferentiableNlp.lagrangian,
    DifferentiableNlp.cached_property.
  destruct (DifferentiableNlp.slot_get _ w); [apply keeps_refl|].
  pose proof (keeping_lagrangian_body w) as H.
  destruct (DifferentiableNlp.lagrangian_body w) as [[v|e] w']; simpl in *;
    exact H.
Qed.

Lemma keeping_primal_dual_variables :
  keeping DifferentiableNlp.primal_dual_variables.
Proof.
  intros w. unfold DifferentiableNlp.primal_dual_variables,
    DifferentiableNlp.cached_property.
  destruct (DifferentiableNlp.slot_get _ w); apply keeps_refl.
Qed.

Lemma event_keeps e w :
  declares_variable e = false -> keeps_bound_terms w (event e w).
Proof.
  destruct e as [[name shape lb ub|name lhs op rhs|objective|p]|b];
    cbn [declares_variable event call]; intros H; try discriminate.
  - destruct (constraint_cache name lhs op rhs w) as (_ & _ & H1 & H2).
    split; intros v Hv; congruence.
  - destruct (minimize_cache objective w) as (_ & H1 & H2 & _).
    split; intros v Hv; congruence.
  - destruct p.
    + apply keeping_h_lbx.
    + apply keeping_h_ubx.
    + apply keeping_lagrangian.
    + apply keeping_primal_dual_variables.
  - split; auto.
Qed.

Lemma events_keep es w :
  forallb (fun e => negb (declares_variable e)) es = true ->
  keeps_bound_terms w (events es w).
Proof.
  revert w. induction es as [|e es IH]; simpl; intros w H.
  - apply keeps_refl.
  - apply andb_true_iff in H. destruct H as [He Hes].
    apply negb_true_iff in He.
    eapply keeps_trans; [apply event_keeps, He|apply IH, Hes].
Qed.

Lemma h_lbx_held w v :
  fst (DifferentiableNlp.h_lbx w) = Ok v ->
  DifferentiableNlp.cached_h_lbx (snd (DifferentiableNlp.h_lbx w)) = Some v.
Proof.
  unfold DifferentiableNlp.h_lbx, DifferentiableNlp.cached_property. simpl.
  destruct (DifferentiableNlp.cached_h_lbx w) eqn:E; simpl.
  - congruence.
  - destruct (DifferentiableNlp.h_lbx_body w); simpl; congruence.
Qed.

Lemma h_ubx_held w v :
  fst (DifferentiableNlp.h_ubx w) = Ok v ->
  DifferentiableNlp.cached_h_ubx (snd (DifferentiableNlp.h_ubx w)) = Some v.
Proof.
  unfold DifferentiableNlp.h_ubx, DifferentiableNlp.cached_property. simpl.
  destruct (DifferentiableNlp.cached_h_ubx w) eqn:E; simpl.
  - congruence.
  - destruct (DifferentiableNlp.h_ubx_body w); simpl; congruence.
Qed.

Lemma h_lbx_from_cache w v :
  DifferentiableNlp.cached_h_lbx w = Some v ->
  fst (DifferentiableNlp.h_lbx w) = Ok v.
Proof.
  intros H. unfold DifferentiableNlp.h_lbx, DifferentiableNlp.cached_property.
  simpl. now rewrite H.
Qed.

Lemma h_ubx_from_cache w v :
  DifferentiableNlp.cached_h_ubx w = Some v ->
  fst (DifferentiableNlp.h_ubx w) = Ok v.
Proof.
  intros H. unfold DifferentiableNlp.h_ubx, DifferentiableNlp.cached_property.
  simpl. now rewrite H.
Qed.

Lemma h_lbx_fresh w :
  DifferentiableNlp.cached_h_lbx w = None ->
  fst (DifferentiableNlp.h_lbx w) = DifferentiableNlp.h_lbx_body w.
Proof.
  intros H. unfold DifferentiableNlp.h_lbx, DifferentiableNlp.cached_property.
  simpl. rewrite H. now destruct (DifferentiableNlp.h_lbx_body w).
Qed.

Lemma h_ubx_fresh w :
  DifferentiableNlp.cached_h_ubx w = None ->
  fst (DifferentiableNlp.h_ubx w) = DifferentiableNlp.h_ubx_body w.
Proof.
  intros H. unfold DifferentiableNlp.h_ubx, DifferentiableNlp.cached_property.
  simpl. rewrite H. now destruct (DifferentiableNlp.h_ubx_body w).
Qed.

(** C7 (as amended). On every wrapper reached through the public
    methods, once an access of a bound term has returned a pair, every
    later access returns this memoized pair for as long as no variable is
    declared through the wrapper, assignments of the simplify flag
    included; the first access after a declaration of a variable computes
    the pair from the NLP and the flag as they are then. *)
Theorem bound_terms_are_memoized_until_a_variable_is_declared
        (ncs : list NlpCall) (s b : bool) (cs : list Call)
        (es : list Event) :
  forallb (fun e => negb (declares_variable e)) es = true ->
  let w := reached ncs s b cs in
  (forall v,
      fst (DifferentiableNlp.h_lbx w) = Ok v ->
      fst (DifferentiableNlp.h_lbx
             (events es (snd (DifferentiableNlp.h_lbx w)))) = Ok v) /\
  (forall v,
      fst (DifferentiableNlp.h_ubx w) = Ok v ->
      fst (DifferentiableNlp.h_ubx
             (events es (snd (DifferentiableNlp.h_ubx w)))) = Ok v) /\
  forall name shape lb ub,
    let w' := snd (DifferentiableNlp.variable name shape lb ub (events es w)) in
    fst (DifferentiableNlp.h_lbx w') = DifferentiableNlp.h_lbx_body w' /\
    fst (DifferentiableNlp.h_ubx w') = DifferentiableNlp.h_ubx_body w'.
Proof.
  intros Hes w.
  split; [|split].
  - intros v Hv. apply h_lbx_from_cache.
    apply (events_keep es _ Hes). now apply h_lbx_held.
  - intros v Hv. apply h_ubx_from_cache.
    apply (events_keep es _ Hes). now apply h_ubx_held.
  - intros name shape lb ub w'.
    destruct (variable_cache name shape lb ub (events es w)) as (Hl & Hu & _).
    split; [now apply h_lbx_fresh|now apply h_ubx_fresh].
Qed.

(* ================================================================== *)
(** * Scenarios *)

(** The four variables of [test_h_lbx_ubx__returns_correct_indices], one
    inequality constraint and an objective. *)
Definition example_calls : list NlpCall :=
  [NVariable "x1" (2, 1) Nlp.default_lb Nlp.default_ub;
   NVariable "x2" (2, 1) (Nlp.Scalar 0%float) Nlp.default_ub;
   NVariable "x3" (2, 1) Nlp.default_lb (Nlp.Scalar 1%float);
   NVariable "x4" (2, 1) (Nlp.Scalar 0%float) (Nlp.Scalar 1%float);
   NConstraint "c1" (sym "x1" 2 1) "<=" (mkMat 1 1 [Const 5%float]);
   NMinimize (mkMat 1 1 [Sym "x1" 0])].

Definition example_nlp : Nlp.t := nlp_calls example_calls Nlp.init.


(** The three variables of [test_solve__computes_corretly__example_6],
    with a solver initialized. *)
Definition example_6 : Nlp.t :=
  nlp_calls
    [NVariable "x" (3, 1) (Nlp.Scalar 0%float) Nlp.default_ub;
     NVariable "y" (3, 1) (Nlp.Scalar 0%float) Nlp.default_ub;
     NVariable "z" (3, 1) (Nlp.Scalar 0%float) Nlp.default_ub;
     NMinimize (mkMat 1 1 [Add (Sym "x" 0) (Sym "y" 0)]);
     NInitSolver [("print_time", "False")]]
    Nlp.init.

(** A stand-in for the external solver: some point and zero
    multipliers. *)
Definition example_solver : Solution.Solver := fun n _ _ =>
  Solution.mkOutput true 3%float
    [1%float; 2%float; 3%float; 4%float; 5%float; 6%float;
     7%float; 8%float; 9%float]
    [] [] (repeat 0%float 9) (repeat 0%float 9).

Definition example_solution : Solution.t :=
  Eval vm_compute in
    match Solution.solve example_solver [] [] example_6 with
    | Ok sol => sol
    | Raise _ => Solution.mk 0%float false [] []
    end.

(** The bound terms of the example NLP, as the test-suite expects them:
    in simplify mode the rows of [x2] and [x4] below and of [x3] and [x4]
    above; in full mode all eight rows. *)
Example h_lbx_simplified_on_example :
  fst (DifferentiableNlp.h_lbx
         (DifferentiableNlp.__init__ example_nlp true false)) =
  Ok ([Sub (Const 0%float) (Sym "x2" 0); Sub (Const 0%float) (Sym "x2" 1);
       Sub (Const 0%float) (Sym "x4" 0); Sub (Const 0%float) (Sym "x4" 1)],
      [Sym "lam_lb_x2" 0; Sym "lam_lb_x2" 1;
       Sym "lam_lb_x4" 0; Sym "lam_lb_x4" 1]).
Proof. vm_compute. reflexivity. Qed.

Example h_ubx_simplified_on_example :
  fst (DifferentiableNlp.h_ubx
         (DifferentiableNlp.__init__ example_nlp true false)) =
  Ok ([Sub (Sym "x3" 0) (Const 1%float); Sub (Sym "x3" 1) (Const 1%float);
       Sub (Sym "x4" 0) (Const 1%float); Sub (Sym "x4" 1) (Const 1%float)],
      [Sym "lam_ub_x3" 0; Sym "lam_ub_x3" 1;
       Sym "lam_ub_x4" 0; Sym "lam_ub_x4" 1]).
Proof. vm_compute. reflexivity. Qed.

Example h_lbx_full_on_example :
  option_map (@length SX)
    (match fst (DifferentiableNlp.h_lbx
                  (DifferentiableNlp.__init__ example_nlp false false)) with
     | Ok p => Some (fst p)
     | Raise _ => None
     end) = Some 8 /\
  evalf (fun _ _ => Some 2%float) (Sub (Const neg_infinity) (Sym "x1" 0)) =
  Some neg_infinity.
Proof. split; vm_compute; reflexivity. Qed.

(** C1, at an input: on the wrapper of the example NLP the access of
    [primal_dual_variables] raises [NameError], whereas the loop run over
    the list that the module defines collects the nineteen entries of
    [x], [lam_h], [lam_lbx'] and [lam_ubx']. *)
Example primal_dual_variables_raises_on_example :
  fst (DifferentiableNlp.primal_dual_variables
         (DifferentiableNlp.__init__ example_nlp true false)) =
  Raise (NameError "_PRIMAL_DUAL_ORDER") /\
  (exists args w',
      DifferentiableNlp.primal_dual_args
        ["x"; "g"; "h"; "h_lbx"; "h_ubx"]
        (DifferentiableNlp.__init__ example_nlp true false) = (Ok args, w') /\
      length (vertcat args) = 8 + 0 + 2 + 4 + 4).
Proof.
  split; [vm_compute; reflexivity|].
  eexists. eexists. split; vm_compute; reflexivity.
Qed.

(** The Lagrangian of the example NLP, in simplify mode. *)
Lemma lagrangian_witness :
  Nlp._f (DifferentiableNlp.nlp (reached example_calls true false [])) =
  Some (Sym "x1" 0) /\
  exists h_l lam_l h_u lam_u,
    let w := reached example_calls true false [] in
    let n := DifferentiableNlp.nlp w in
    fst (DifferentiableNlp.h_lbx w) = Ok (h_l, lam_l) /\
    fst (DifferentiableNlp.h_ubx w) = Ok (h_u, lam_u) /\
    fst (DifferentiableNlp.lagrangian w) =
    Ok (Add (Add (Add (Add (Sym "x1" 0)
                           (dot_sum (Nlp._lam_g n) (Nlp._g n)))
                      (dot_sum (Nlp._lam_h n) (Nlp._h n)))
                 (dot_sum lam_l h_l))
            (dot_sum lam_u h_u)).
Proof.
  split; [vm_compute; reflexivity|].
  apply (lagrangian_is_objective_plus_weighted_constraints
           example_calls true false [] (f := Sym "x1" 0)).
  vm_compute; reflexivity.
Defined.

(** A second variable [x2] on the example NLP. *)
Lemma duplicate_name_witness :
  contains "x2" (Nlp._vars example_nlp) = true /\
  fst (declare (DVariable "x2" (1, 1) Nlp.default_lb Nlp.default_ub)
               example_nlp) = Some (NamingConflict "x2") /\
  snd (declare (DVariable "x2" (1, 1) Nlp.default_lb Nlp.default_ub)
               example_nlp) = example_nlp.
Proof.
  split; [vm_compute; reflexivity|].
  destruct (@duplicate_name_is_refused
              (DVariable "x2" (1, 1) Nlp.default_lb Nlp.default_ub)
              example_nlp) as (H1 & H2 & _).
  - vm_compute; reflexivity.
  - split; [exact H1|exact H2].
Defined.

(** The variable [y] of the solved example. *)
Lemma vals_agree_with_value_witness :
  Solution.solve example_solver [] [] example_6 = Ok example_solution /\
  assoc "y" (Nlp._vars example_6) = Some (sym "y" 3 1) /\
  exists v,
    assoc "y" (Solution.vals example_solution) = Some v /\
    Solution.value example_solution (sym "y" 3 1) = Ok v.
Proof.
  split; [vm_compute; reflexivity|]. split; [vm_compute; reflexivity|].
  apply (@vals_agree_with_value example_solver [] [] example_6
           example_solution "y" (sym "y" 3 1)); vm_compute; reflexivity.
Defined.

(** The lower bound term of the example NLP survives an assignment of
    the flag, an access of the Lagrangian and a new objective. *)
Lemma memoized_witness :
  let es := [EAssignSimplify false;
             ECall (CGet DifferentiableNlp.prop_lagrangian);
             ECall (CMinimize (mkMat 1 1 [Sym "x2" 0]))] in
  let w := reached example_calls true false [] in
  exists v,
    forallb (fun e => negb (declares_variable e)) es = true /\
    fst (DifferentiableNlp.h_lbx w) = Ok v /\
    fst (DifferentiableNlp.h_lbx
           (events es (snd (DifferentiableNlp.h_lbx w)))) = Ok v.
Proof.
  intros es w.
  assert (H : forallb (fun e => negb (declares_variable e)) es = true)
    by (vm_compute; reflexivity).
  destruct (fst (DifferentiableNlp.h_lbx w)) as [v|e] eqn:E;
    [|vm_compute in E; discriminate E].
  exists v. split; [exact H|]. split; [reflexivity|].
  exact (proj1 (@bound_terms_are_memoized_until_a_variable_is_declared
                  example_calls true false [] es H) v E).
Defined.




(** A single variable of two entries without bounds. *)
Definition unbounded_nlp : Nlp.t :=
  nlp_calls [NVariable "x" (2, 1) Nlp.default_lb Nlp.default_ub] Nlp.init.

(** C7, as stated, fails: after [h_lbx] has been accessed in simplify
    mode (no row: the two bounds are [-inf]), switching the flag off does
    not make the next access recompute the pair; the access returns the
    memoized pair without rows, whereas the getter run afresh gives the
    rows [-inf - x[0]] and [-inf - x[1]]. *)
Lemma simplify_flag_change_does_not_recompute :
  let w0 := DifferentiableNlp.__init__ unbounded_nlp true false in
  let w1 := snd (DifferentiableNlp.h_lbx w0) in
  let w2 := DifferentiableNlp.set_remove_reduntant_x_bounds false w1 in
  fst (DifferentiableNlp.h_lbx w0) = Ok ([], []) /\
  simplify_flag w2 = false /\
  fst (DifferentiableNlp.h_lbx w2) = Ok ([], []) /\
  DifferentiableNlp.h_lbx_body w2 =
  Ok ([Sub (Const neg_infinity) (Sym "x" 0);
       Sub (Const neg_infinity) (Sym "x" 1)],
      [Sym "lam_lb_x" 0; Sym "lam_lb_x" 1]) /\
  fst (DifferentiableNlp.h_lbx w2) <> DifferentiableNlp.h_lbx_body w2.
Proof.
  intros w0 w1 w2.
  split; [vm_compute; reflexivity|]. split; [reflexivity|].
  split; [vm_compute; reflexivity|]. split; [vm_compute; reflexivity|].
  intros H. vm_compute in H. discriminate H.
Qed.

(** One scalar variable without bounds, in simplify mode: [x] has one
    entry and no index is retained, so [x[idx]] is the row [1 x 0] while
    the bound read at [idx, None] is the column [0 x 1], and the
    subtractions of lines 59 and 71 are refused; so is the Lagrangian,
    which reads both terms.  In full mode, and for a variable of two
    entries, the properties return. *)
Definition scalar_calls : list NlpCall :=
  [NVariable "x" (1, 1) Nlp.default_lb Nlp.default_ub;
   NMinimize (mkMat 1 1 [Sym "x" 0])].

Example bound_terms_refused_on_an_unbounded_scalar :
  let w := reached scalar_calls true false [] in
  fst (DifferentiableNlp.h_lbx w) = Raise BackendError /\
  fst (DifferentiableNlp.h_ubx w) = Raise BackendError /\
  fst (DifferentiableNlp.lagrangian w) = Raise BackendError /\
  fst (DifferentiableNlp.h_lbx (reached scalar_calls false false [])) =
  Ok ([Sub (Const neg_infinity) (Sym "x" 0)], [Sym "lam_lb_x" 0]) /\
  fst (DifferentiableNlp.h_lbx
         (DifferentiableNlp.__init__ unbounded_nlp true false)) = Ok ([], []).
Proof. repeat split; vm_compute; reflexivity. Qed.

(** One scalar variable with the lower bound [0] and no upper bound, in
    simplify mode: [h_lbx] returns its row, [h_ubx] is refused, and so is
    the Lagrangian. *)
Definition half_bounded_calls : list NlpCall :=
  [NVariable "x" (1, 1) (Nlp.Scalar 0%float) Nlp.default_ub;
   NMinimize (mkMat 1 1 [Sym "x" 0])].

Example lagrangian_refused_on_a_half_bounded_scalar :
  let w := reached half_bounded_calls true false [] in
  Nlp._f (DifferentiableNlp.nlp w) = Some (Sym "x" 0) /\
  fst (DifferentiableNlp.h_lbx w) =
  Ok ([Sub (Const 0%float) (Sym "x" 0)], [Sym "lam_lb_x" 0]) /\
  fst (DifferentiableNlp.h_ubx w) = Raise BackendError /\
  fst (DifferentiableNlp.lagrangian w) = Raise BackendError.
Proof. repeat split; vm_compute; reflexivity. Qed.

(* ================================================================== *)
(** * Further properties of the bound terms *)

(** [v[mask]] for a boolean numpy mask of the length of [v]. *)
Fixpoint select {A} (mask : list bool) (v : list A) : list A :=
  match mask, v with
  | b :: mask', a :: v' => if b then a :: select mask' v' else select mask' v'
  | _, _ => []
  end.

(** The mask [a != c]. *)
Definition ne_mask (a : list float) (c : float) : list bool :=
  map (fun v => negb (PrimFloat.eqb v c)) a.

Lemma select_length_le {A} mask (v : list A) : length (select mask v) <= length v.
Proof.
  revert v. induction mask as [|b mask IH]; intros [|a v]; simpl; try lia.
  specialize (IH v). destruct b; simpl; lia.
Qed.

Lemma select_none {A} mask (v : list A) :
  Forall (fun b => b = false) mask -> select mask v = [].
Proof.
  intros H. revert v. induction H as [|b mask Hb _ IH]; intros [|a v]; simpl;
    auto. subst b. apply IH.
Qed.

Lemma filter_seq_succ (p : nat -> bool) k n :
  filter p (seq (S k) n) = map S (filter (fun i => p (S i)) (seq k n)).
Proof.
  rewrite <- seq_shift. induction (seq k n) as [|i l IH]; simpl; auto.
  destruct (p (S i)); simpl; now rewrite IH.
Qed.

Lemma np_where_ne_cons x a c :
  DifferentiableNlp.np_where_ne (x :: a) c =
  (if negb (PrimFloat.eqb x c) then [0] else []) ++
  map S (DifferentiableNlp.np_where_ne a c).
Proof.
  unfold DifferentiableNlp.np_where_ne. simpl length. simpl seq.
  cbn [filter nth_error]. rewrite filter_seq_succ.
  destruct (negb (PrimFloat.eqb x c)); reflexivity.
Qed.

Lemma Forall2_map_succ {A} (v : list A) a idx l :
  Forall2 (fun i e => nth_error (a :: v) i = Some e) (map S idx) l ->
  Forall2 (fun i e => nth_error v i = Some e) idx l.
Proof.
  revert l. induction idx as [|i idx IH]; simpl; intros l H;
    inversion H; subst; constructor; auto.
Qed.

(** Reading a vector at [np.where(a != c)] is reading it under the mask
    [a != c]. *)
Lemma take_where_is_select {A} (a : list float) c (v l : list A) :
  length v = length a ->
  Forall2 (fun i e => nth_error v i = Some e)
          (DifferentiableNlp.np_where_ne a c) l ->
  l = select (ne_mask a c) v.
Proof.
  revert v l. induction a as [|x a IH]; intros [|y v] l Hlen H;
    simpl in Hlen; try discriminate.
  - inversion H. reflexivity.
  - rewrite np_where_ne_cons in H. simpl.
    destruct (negb (PrimFloat.eqb x c)); simpl in H.
    + inversion H as [|i e idx l' Hi Hrest]; subst. simpl in Hi.
      inversion Hi; subst. f_equal.
      apply IH; [lia|]. now apply Forall2_map_succ in Hrest.
    + apply IH; [lia|]. now apply Forall2_map_succ in H.
Qed.

Lemma lb_minus_x_nth lbx x i b xi :
  nth_error lbx i = Some b -> nth_error x i = Some xi ->
  nth_error (lb_minus_x lbx x) i = Some (Sub (Const b) xi).
Proof.
  revert x i. induction lbx as [|b' lbx IH]; intros [|x' x] [|i]; simpl;
    try discriminate.
  - intros H1 H2. inversion H1; inversion H2; subst. reflexivity.
  - apply IH.
Qed.

Lemma x_minus_ub_nth ubx x i b xi :
  nth_error ubx i = Some b -> nth_error x i = Some xi ->
  nth_error (x_minus_ub x ubx) i = Some (Sub xi (Const b)).
Proof.
  revert x i. induction ubx as [|b' ubx IH]; intros [|x' x] [|i]; simpl;
    try discriminate.
  - intros H1 H2. inversion H1; inversion H2; subst. reflexivity.
  - apply IH.
Qed.

Lemma lb_minus_x_length lbx x :
  length lbx = length x -> length (lb_minus_x lbx x) = length x.
Proof.
  intros H. unfold lb_minus_x. rewrite length_map, length_combine. lia.
Qed.

Lemma x_minus_ub_length ubx x :
  length ubx = length x -> length (x_minus_ub x ubx) = length x.
Proof.
  intros H. unfold x_minus_ub. rewrite length_map, length_combine. lia.
Qed.

Lemma Forall2_weaken {A B} (P Q : A -> B -> Prop) l l' :
  (forall a b, P a b -> Q a b) -> Forall2 P l l' -> Forall2 Q l l'.
Proof. intros H. induction 1; constructor; auto. Qed.

(** The number of entries of [a] that differ from [c]. *)
Definition count_ne (c : float) (a : list float) : nat :=
  length (filter (fun x => negb (PrimFloat.eqb x c)) a).

Lemma np_where_ne_length a c :
  length (DifferentiableNlp.np_where_ne a c) = count_ne c a.
Proof.
  unfold count_ne. induction a as [|x a IH]; [reflexivity|].
  rewrite np_where_ne_cons, length_app, length_map, IH. simpl.
  destruct (negb (PrimFloat.eqb x c)); reflexivity.
Qed.

(** The bound terms in closed form: all the rows [lbx - x] with all the
    multipliers, read under the mask [lbx != -inf] in simplify mode,
    where the access is refused if [x] has one entry and the mask drops
    it. *)
Lemma h_lbx_body_closed w :
  Nlp_wf (DifferentiableNlp.nlp w) ->
  let n := DifferentiableNlp.nlp w in
  DifferentiableNlp.h_lbx_body w =
  if simplify_flag w
  then if degenerate (Nlp.nx n) (count_ne neg_infinity (Nlp._lbx n))
       then Raise BackendError
       else Ok (select (ne_mask (Nlp._lbx n) neg_infinity)
                       (lb_minus_x (Nlp._lbx n) (Nlp._x n)),
                select (ne_mask (Nlp._lbx n) neg_infinity) (Nlp._lam_lbx n))
  else Ok (lb_minus_x (Nlp._lbx n) (Nlp._x n), Nlp._lam_lbx n).
Proof.
  intros Hwf n. subst n.
  pose proof (h_lbx_body_rows w Hwf) as R. cbv zeta in R.
  set (n := DifferentiableNlp.nlp w) in *.
  pose proof (lb_minus_x_length _ _ (wf_lbx Hwf)) as Ls.
  pose proof (wf_lbx Hwf) as L1. pose proof (wf_lam_lbx Hwf) as L2.
  fold n in Ls, L1, L2.
  assert (W : forall idx h,
             Forall2 (fun i e => exists b xi,
                          nth_error (Nlp._lbx n) i = Some b /\
                          nth_error (Nlp._x n) i = Some xi /\
                          e = Sub (Const b) xi) idx h ->
             Forall2 (fun i e =>
                        nth_error (lb_minus_x (Nlp._lbx n) (Nlp._x n)) i
                        = Some e) idx h).
  { intros idx h Hh. eapply Forall2_weaken; [|exact Hh].
    intros i e (b & xi & Hb & Hxi & ->). now apply lb_minus_x_nth. }
  destruct (simplify_flag w).
  - cbn [retained] in R. rewrite np_where_ne_length in R.
    destruct (degenerate (Nlp.nx n) (count_ne neg_infinity (Nlp._lbx n)));
      [exact R|].
    destruct R as (h & lam & -> & Hh & Hl). apply W in Hh.
    f_equal. f_equal.
    + apply take_where_is_select; [congruence|exact Hh].
    + apply take_where_is_select; [congruence|exact Hl].
  - rewrite degenerate_full in R.
    destruct R as (h & lam & -> & Hh & Hl). apply W in Hh.
    cbn [retained] in *.
    unfold DifferentiableNlp.np_arange, Nlp.nx in *. f_equal. f_equal.
    + apply Forall2_all_indices. now rewrite Ls.
    + apply Forall2_all_indices. now rewrite L2.
Qed.

Lemma h_ubx_body_closed w :
  Nlp_wf (DifferentiableNlp.nlp w) ->
  let n := DifferentiableNlp.nlp w in
  DifferentiableNlp.h_ubx_body w =
  if simplify_flag w
  then if degenerate (Nlp.nx n) (count_ne infinity (Nlp._ubx n))
       then Raise BackendError
       else Ok (select (ne_mask (Nlp._ubx n) infinity)
                       (x_minus_ub (Nlp._x n) (Nlp._ubx n)),
                select (ne_mask (Nlp._ubx n) infinity) (Nlp._lam_ubx n))
  else Ok (x_minus_ub (Nlp._x n) (Nlp._ubx n), Nlp._lam_ubx n).
Proof.
  intros Hwf n. subst n.
  pose proof (h_ubx_body_rows w Hwf) as R. cbv zeta in R.
  set (n := DifferentiableNlp.nlp w) in *.
  pose proof (x_minus_ub_length _ _ (wf_ubx Hwf)) as Ls.
  pose proof (wf_ubx Hwf) as L1. pose proof (wf_lam_ubx Hwf) as L2.
  fold n in Ls, L1, L2.
  assert (W : forall idx h,
             Forall2 (fun i e => exists b xi,
                          nth_error (Nlp._ubx n) i = Some b /\
                          nth_error (Nlp._x n) i = Some xi /\
                          e = Sub xi (Const b)) idx h ->
             Forall2 (fun i e =>
                        nth_error (x_minus_ub (Nlp._x n) (Nlp._ubx n)) i
                        = Some e) idx h).
  { intros idx h Hh. eapply Forall2_weaken; [|exact Hh].
    intros i e (b & xi & Hb & Hxi & ->). now apply x_minus_ub_nth. }
  destruct (simplify_flag w).
  - cbn [retained] in R. rewrite np_where_ne_length in R.
    destruct (degenerate (Nlp.nx n) (count_ne infinity (Nlp._ubx n)));
      [exact R|].
    destruct R as (h & lam & -> & Hh & Hl). apply W in Hh.
    f_equal. f_equal.
    + apply take_where_is_select; [congruence|exact Hh].
    + apply take_where_is_select; [congruence|exact Hl].
  - rewrite degenerate_full in R.
    destruct R as (h & lam & -> & Hh & Hl). apply W in Hh.
    cbn [retained] in *.
    unfold DifferentiableNlp.np_arange, Nlp.nx in *. f_equal. f_equal.
    + apply Forall2_all_indices. now rewrite Ls.
    + apply Forall2_all_indices. now rewrite L2.
Qed.

(** What a use of the wrapper does to the wrapped NLP. *)
Definition nlp_step (c : Call) (n : Nlp.t) : Nlp.t :=
  match c with
  | CVariable name shape lb ub => snd (Nlp.variable name shape lb ub n)
  | CConstraint name lhs op rhs => snd (Nlp.constraint name lhs op rhs n)
  | CMinimize objective => snd (Nlp.minimize objective n)
  | CGet _ => n
  end.

Lemma on_nlp_reset_nlp {A} props (m : Nlp.Method A) w :
  DifferentiableNlp.nlp
    (snd (DifferentiableNlp.cached_property_reset
            props (DifferentiableNlp.on_nlp m) w)) =
  snd (m (DifferentiableNlp.nlp w)).
Proof.
  unfold DifferentiableNlp.cached_property_reset, DifferentiableNlp.on_nlp.
  assert (E : forall w0,
             DifferentiableNlp.nlp
               (fold_left (fun s p => DifferentiableNlp.invalidate p s)
                          props w0) = DifferentiableNlp.nlp w0).
  { induction props as [|p props IH]; simpl; intros w0; auto.
    rewrite IH. destruct p; reflexivity. }
  rewrite E. destruct (m (DifferentiableNlp.nlp w)). reflexivity.
Qed.

Lemma call_nlp c w :
  inv w -> DifferentiableNlp.nlp (call c w) = nlp_step c (DifferentiableNlp.nlp w).
Proof.
  intros [_ C].
  destruct c as [name shape lb ub|name lhs op rhs|objective|p];
    cbn [call nlp_step].
  - apply on_nlp_reset_nlp.
  - apply on_nlp_reset_nlp.
  - apply on_nlp_reset_nlp.
  - destruct p.
    + destruct (h_lbx_spec C) as (w' & -> & _ & (H & _)). exact H.
    + destruct (h_ubx_spec C) as (w' & -> & _ & (H & _)). exact H.
    + destruct (lagrangian_spec C) as (w' & -> & _ & (H & _)). exact H.
    + now rewrite (primal_dual_variables_spec C).
Qed.

Lemma calls_nlp cs w :
  inv w ->
  DifferentiableNlp.nlp (calls cs w) =
  fold_left (fun n c => nlp_step c n) cs (DifferentiableNlp.nlp w).
Proof.
  revert w. induction cs as [|c cs IH]; simpl; intros w I; auto.
  rewrite IH by now apply call_inv. now rewrite call_nlp.
Qed.

(** The NLP of a reached wrapper does not depend on the flags. *)
Lemma reached_nlp ncs s b cs :
  DifferentiableNlp.nlp (reached ncs s b cs) =
  fold_left (fun n c => nlp_step c n) cs (nlp_calls ncs Nlp.init).
Proof.
  unfold reached. rewrite calls_nlp; [reflexivity|].
  apply init_inv, nlp_calls_wf, init_wf.
Qed.

Lemma reached_h_lbx_closed ncs s b cs :
  let w := reached ncs s b cs in
  let n := DifferentiableNlp.nlp w in
  fst (DifferentiableNlp.h_lbx w) =
  if s
  then if degenerate (Nlp.nx n) (count_ne neg_infinity (Nlp._lbx n))
       then Raise BackendError
       else Ok (select (ne_mask (Nlp._lbx n) neg_infinity)
                       (lb_minus_x (Nlp._lbx n) (Nlp._x n)),
                select (ne_mask (Nlp._lbx n) neg_infinity) (Nlp._lam_lbx n))
  else Ok (lb_minus_x (Nlp._lbx n) (Nlp._x n), Nlp._lam_lbx n).
Proof.
  intros w n. subst w n. rewrite reached_h_lbx.
  destruct (reached_inv ncs s b cs) as [Hwf _].
  rewrite (h_lbx_body_closed _ Hwf). now rewrite reached_simplify_flag.
Qed.

Lemma reached_h_ubx_closed ncs s b cs :
  let w := reached ncs s b cs in
  let n := DifferentiableNlp.nlp w in
  fst (DifferentiableNlp.h_ubx w) =
  if s
  then if degenerate (Nlp.nx n) (count_ne infinity (Nlp._ubx n))
       then Raise BackendError
       else Ok (select (ne_mask (Nlp._ubx n) infinity)
                       (x_minus_ub (Nlp._x n) (Nlp._ubx n)),
                select (ne_mask (Nlp._ubx n) infinity) (Nlp._lam_ubx n))
  else Ok (x_minus_ub (Nlp._x n) (Nlp._ubx n), Nlp._lam_ubx n).
Proof.
  intros w n. subst w n. rewrite reached_h_ubx.
  destruct (reached_inv ncs s b cs) as [Hwf _].
  rewrite (h_ubx_body_closed _ Hwf). now rewrite reached_simplify_flag.
Qed.

Lemma select_mask_length {A} (a : list float) c (v : list A) :
  length v = length a ->
  length (select (ne_mask a c) v) = count_ne c a.
Proof.
  unfold count_ne.
  revert v. induction a as [|x a IH]; intros [|y v] H; simpl in *;
    try discriminate; auto.
  destruct (negb (PrimFloat.eqb x c)); simpl; rewrite IH; auto.
Qed.

(** X1. Simplification only drops rows: on the same sequence of calls,
    [h_lbx] returns in full mode, and what it gives in simplify mode is
    the full-mode pair read under the mask [lbx != -inf], inequality rows
    and multipliers alike, except that the access is refused by the
    backend when [x] has one entry and the mask drops it; likewise
    [h_ubx] with the mask [ubx != +inf]. *)
Theorem simplified_bound_terms_are_masked_full_terms
        (ncs : list NlpCall) (b b' : bool) (cs : list Call) :
  let ws := reached ncs true b cs in
  let wf := reached ncs false b' cs in
  let n := DifferentiableNlp.nlp wf in
  let mask_l := ne_mask (Nlp._lbx n) neg_infinity in
  let mask_u := ne_mask (Nlp._ubx n) infinity in
  exists hl ll hu lu,
    fst (DifferentiableNlp.h_lbx wf) = Ok (hl, ll) /\
    fst (DifferentiableNlp.h_ubx wf) = Ok (hu, lu) /\
    fst (DifferentiableNlp.h_lbx ws) =
    (if degenerate (Nlp.nx n) (length (select mask_l ll))
     then Raise BackendError
     else Ok (select mask_l hl, select mask_l ll)) /\
    fst (DifferentiableNlp.h_ubx ws) =
    (if degenerate (Nlp.nx n) (length (select mask_u lu))
     then Raise BackendError
     else Ok (select mask_u hu, select mask_u lu)).
Proof.
  intros ws wf n mask_l mask_u. subst ws wf n mask_l mask_u.
  pose proof (reached_h_lbx_closed ncs true b cs) as S1.
  pose proof (reached_h_ubx_closed ncs true b cs) as S2.
  pose proof (reached_h_lbx_closed ncs false b' cs) as F1.
  pose proof (reached_h_ubx_closed ncs false b' cs) as F2.
  cbv zeta in S1, S2, F1, F2.
  rewrite (reached_nlp ncs true b cs) in S1, S2.
  rewrite <- (reached_nlp ncs false b' cs) in S1, S2.
  destruct (reached_inv ncs false b' cs) as [Hwf _].
  do 4 eexists. split; [exact F1|]. split; [exact F2|].
  rewrite !select_mask_length
    by (rewrite ?(wf_lam_lbx Hwf), ?(wf_lam_ubx Hwf), ?(wf_lbx Hwf),
          ?(wf_ubx Hwf); reflexivity).
  split; [exact S1|exact S2].
Qed.

(** X2. In simplify mode [h_lbx] is refused by the backend if [x] has
    one entry and no entry of [lbx] differs from [-inf]; in every other
    case it returns, and the number of its rows, and of its multipliers,
    is the number of entries of [lbx] that differ from [-inf], which does
    not exceed [nx].  Likewise [h_ubx] with the entries of [ubx] that
    differ from [+inf]. *)
Theorem simplified_bound_terms_count_the_finite_bounds
        (ncs : list NlpCall) (b : bool) (cs : list Call) :
  let w := reached ncs true b cs in
  let n := DifferentiableNlp.nlp w in
  (if (Nlp.nx n =? 1) && (count_ne neg_infinity (Nlp._lbx n) =? 0)
   then fst (DifferentiableNlp.h_lbx w) = Raise BackendError
   else
     exists hl ll,
       fst (DifferentiableNlp.h_lbx w) = Ok (hl, ll) /\
       length hl = count_ne neg_infinity (Nlp._lbx n) /\
       length ll = count_ne neg_infinity (Nlp._lbx n) /\
       length hl <= Nlp.nx n) /\
  (if (Nlp.nx n =? 1) && (count_ne infinity (Nlp._ubx n) =? 0)
   then fst (DifferentiableNlp.h_ubx w) = Raise BackendError
   else
     exists hu lu,
       fst (DifferentiableNlp.h_ubx w) = Ok (hu, lu) /\
       length hu = count_ne infinity (Nlp._ubx n) /\
       length lu = count_ne infinity (Nlp._ubx n) /\
       length hu <= Nlp.nx n).
Proof.
  intros w n. subst w n.
  pose proof (reached_h_lbx_closed ncs true b cs) as S1.
  pose proof (reached_h_ubx_closed ncs true b cs) as S2.
  cbv zeta in S1, S2. unfold degenerate in S1, S2.
  destruct (reached_inv ncs true b cs) as [Hwf _].
  set (n := DifferentiableNlp.nlp (reached ncs true b cs)) in *.
  pose proof (wf_lbx Hwf) as L1. pose proof (wf_ubx Hwf) as L2.
  pose proof (wf_lam_lbx Hwf) as L3. pose proof (wf_lam_ubx Hwf) as L4.
  pose proof (lb_minus_x_length _ _ L1) as L5.
  pose proof (x_minus_ub_length _ _ L2) as L6.
  fold n in L1, L2, L3, L4, L5, L6.
  split.
  - destruct ((Nlp.nx n =? 1) && (count_ne neg_infinity (Nlp._lbx n) =? 0));
      [exact S1|].
    do 2 eexists. split; [exact S1|].
    rewrite !select_mask_length by congruence.
    repeat split. unfold Nlp.nx, count_ne. rewrite <- L1.
    apply filter_length_le.
  - destruct ((Nlp.nx n =? 1) && (count_ne infinity (Nlp._ubx n) =? 0));
      [exact S2|].
    do 2 eexists. split; [exact S2|].
    rewrite !select_mask_length by congruence.
    repeat split. unfold Nlp.nx, count_ne. rewrite <- L2.
    apply filter_length_le.
Qed.

Definition call_declares_variable (c : Call) : bool :=
  match c with
  | CVariable _ _ _ _ => true
  | _ => false
  end.

Lemma reached_snoc ncs s b cs c :
  call c (reached ncs s b cs) = reached ncs s b (cs ++ [c]).
Proof. unfold reached, calls. now rewrite fold_left_app. Qed.

Lemma nlp_step_same_variables c n :
  call_declares_variable c = false -> same_variables n (nlp_step c n).
Proof.
  destruct c as [name shape lb ub|name lhs op rhs|objective|p];
    cbn [call_declares_variable nlp_step]; intros H; try discriminate.
  - apply constraint_same_variables.
  - apply minimize_same_variables.
  - apply same_variables_refl.
Qed.

(** X5. The bound terms change with the variables only: on every wrapper
    reached through the public methods, after the declaration of a
    constraint, the setting of an objective or the access of a property,
    [h_lbx] and [h_ubx] return what they returned before. *)
Theorem bound_terms_change_only_with_variables
        (ncs : list NlpCall) (s b : bool) (cs : list Call) (c : Call) :
  call_declares_variable c = false ->
  let w := reached ncs s b cs in
  fst (DifferentiableNlp.h_lbx (call c w)) = fst (DifferentiableNlp.h_lbx w) /\
  fst (DifferentiableNlp.h_ubx (call c w)) = fst (DifferentiableNlp.h_ubx w).
Proof.
  intros Hc w. subst w. rewrite reached_snoc.
  rewrite !reached_h_lbx, !reached_h_ubx. rewrite <- reached_snoc.
  pose proof (reached_inv ncs s b cs) as I.
  assert (Hs : same_variables
                 (DifferentiableNlp.nlp (reached ncs s b cs))
                 (DifferentiableNlp.nlp (call c (reached ncs s b cs)))).
  { rewrite (call_nlp c I). now apply nlp_step_same_variables. }
  destruct (call_flags c I) as [Hf _].
  split; [now apply h_lbx_body_ext|now apply h_ubx_body_ext].
Qed.

(** A bound term survives the declaration of a constraint on the example
    NLP. *)
Lemma bound_terms_change_only_with_variables_witness :
  let c := CConstraint "c2" (sym "x2" 2 1) "==" (sym "x3" 2 1) in
  call_declares_variable c = false /\
  fst (DifferentiableNlp.h_lbx (call c (reached example_calls true false [])))
  = fst (DifferentiableNlp.h_lbx (reached example_calls true false [])).
Proof.
  intros c.
  assert (H : call_declares_variable c = false) by (vm_compute; reflexivity).
  split; [exact H|].
  exact (proj1 (@bound_terms_change_only_with_variables
                  example_calls true false [] c H)).
Defined.

(** ** Declaring a variable appends rows *)









(* ================================================================== *)
(** * Memoization is transparent *)

(** X3. The invalidations of the three decorated methods are enough: on
    every wrapper reached through the public methods, [h_lbx], [h_ubx]
    and [lagrangian] return what they return on a wrapper newly built
    around the NLP as it is now, with the same flags; a memoized value is
    never out of date. *)
Theorem memoized_properties_are_never_out_of_date
        (ncs : list NlpCall) (s b : bool) (cs : list Call) :
  let w := reached ncs s b cs in
  let fresh := DifferentiableNlp.__init__ (DifferentiableNlp.nlp w) s b in
  fst (DifferentiableNlp.h_lbx w) = fst (DifferentiableNlp.h_lbx fresh) /\
  fst (DifferentiableNlp.h_ubx w) = fst (DifferentiableNlp.h_ubx fresh) /\
  fst (DifferentiableNlp.lagrangian w) =
  fst (DifferentiableNlp.lagrangian fresh).
Proof.
  intros w fresh. subst w.
  destruct (reached_inv ncs s b cs) as [Hwf C].
  assert (I : inv fresh) by (apply init_inv, Hwf).
  destruct I as [_ Cf].
  assert (S : same_instance (reached ncs s b cs) fresh).
  { unfold fresh, reached. split; [reflexivity|].
    destruct (calls_flags cs (init_inv s b (nlp_calls_wf ncs init_wf)))
      as [-> ->]. split; reflexivity. }
  destruct (h_lbx_spec C) as (w1 & -> & _).
  destruct (h_ubx_spec C) as (w2 & -> & _).
  destruct (lagrangian_spec C) as (w3 & -> & _).
  destruct (h_lbx_spec Cf) as (w4 & -> & _).
  destruct (h_ubx_spec Cf) as (w5 & -> & _).
  destruct (lagrangian_spec Cf) as (w6 & -> & _).
  cbn [fst]. split; [|split].
  - symmetry. apply h_lbx_body_ext; [now apply same_instance_variables|].
    apply S.
  - symmetry. apply h_ubx_body_ext; [now apply same_instance_variables|].
    apply S.
  - symmetry. now apply lagrangian_of_ext.
Qed.

(** ** The Lagrangian is memoized *)

Definition declares (e : Event) : bool :=
  match e with
  | ECall (CGet _) => false
  | ECall _ => true
  | EAssignSimplify _ => false
  end.

Lemma event_keeps_lagrangian e w L :
  declares e = false ->
  DifferentiableNlp.cached_lagrangian w = Some L ->
  DifferentiableNlp.cached_lagrangian (event e w) = Some L.
Proof.
  destruct e as [[name shape lb ub|name lhs op rhs|objective|p]|b];
    cbn [declares event call]; intros H HL; try discriminate.
  - destruct p.
    + unfold DifferentiableNlp.h_lbx, DifferentiableNlp.cached_property.
      simpl. destruct (DifferentiableNlp.cached_h_lbx w); [exact HL|].
      destruct (DifferentiableNlp.h_lbx_body w); exact HL.
    + unfold DifferentiableNlp.h_ubx, DifferentiableNlp.cached_property.
      simpl. destruct (DifferentiableNlp.cached_h_ubx w); [exact HL|].
      destruct (DifferentiableNlp.h_ubx_body w); exact HL.
    + unfold DifferentiableNlp.lagrangian, DifferentiableNlp.cached_property.
      simpl. rewrite HL. exact HL.
    + unfold DifferentiableNlp.primal_dual_variables,
        DifferentiableNlp.cached_property. simpl.
      destruct (DifferentiableNlp.cached_primal_dual_variables w);
        exact HL.
  - exact HL.
Qed.

Lemma lagrangian_from_cache w L :
  DifferentiableNlp.cached_lagrangian w = Some L ->
  fst (DifferentiableNlp.lagrangian w) = Ok L.
Proof.
  intros H. unfold DifferentiableNlp.lagrangian,
    DifferentiableNlp.cached_property. simpl. now rewrite H.
Qed.

(** X6. Once [lagrangian] has returned an expression, every later access
    returns this expression for as long as nothing is declared through
    the wrapper: accesses of the other properties and assignments of the
    simplify flag leave it in place. *)
Theorem lagrangian_is_memoized_until_a_declaration
        (w : Wrapper) (L : SX) (es : list Event) :
  fst (DifferentiableNlp.lagrangian w) = Ok L ->
  forallb (fun e => negb (declares e)) es = true ->
  fst (DifferentiableNlp.lagrangian
         (events es (snd (DifferentiableNlp.lagrangian w)))) = Ok L.
Proof.
  intros HL Hes.
  assert (H0 : DifferentiableNlp.cached_lagrangian
                 (snd (DifferentiableNlp.lagrangian w)) = Some L).
  { revert HL. unfold DifferentiableNlp.lagrangian,
      DifferentiableNlp.cached_property. simpl.
    destruct (DifferentiableNlp.cached_lagrangian w) eqn:E; simpl.
    - congruence.
    - destruct (DifferentiableNlp.lagrangian_body w) as [[v|e] w'];
        simpl; congruence. }
  assert (H1 : forall w0,
             DifferentiableNlp.cached_lagrangian w0 = Some L ->
             DifferentiableNlp.cached_lagrangian (events es w0) = Some L).
  { clear HL H0. induction es as [|e es IH]; simpl; intros w0 Hw0; auto.
    simpl in Hes. apply andb_true_iff in Hes. destruct Hes as [He Hes].
    apply negb_true_iff in He.
    apply IH; [exact Hes|]. now apply event_keeps_lagrangian. }
  apply lagrangian_from_cache, H1, H0.
Qed.

(** The Lagrangian of the example NLP outlives the switch to full mode
    and an access of [h_lbx]. *)
Lemma lagrangian_is_memoized_witness :
  let w := reached example_calls true false [] in
  let es := [EAssignSimplify false;
             ECall (CGet DifferentiableNlp.prop_h_lbx)] in
  exists L,
    fst (DifferentiableNlp.lagrangian w) = Ok L /\
    forallb (fun e => negb (declares e)) es = true /\
    fst (DifferentiableNlp.lagrangian
           (events es (snd (DifferentiableNlp.lagrangian w)))) = Ok L.
Proof.
  intros w es.
  destruct (fst (DifferentiableNlp.lagrangian w)) as [L|e] eqn:E;
    [|vm_compute in E; discriminate E].
  assert (H : forallb (fun e => negb (declares e)) es = true)
    by (vm_compute; reflexivity).
  exists L. split; [reflexivity|]. split; [exact H|].
  exact (@lagrangian_is_memoized_until_a_declaration w L es E H).
Defined.

(* ================================================================== *)
(** * The loop of the primal-dual vector *)

(** The block that the loop appends for an entry of the order list,
    given what [h_lbx] and [h_ubx] do on the instance: for ["h_lbx"] and
    ["h_ubx"] the multipliers of the returned pair, or the exception that
    the property raises. *)
Definition primal_dual_block (n : Nlp.t)
           (h_lbx_ h_ubx_ : Result (vec * vec)) (o : string) : Result vec :=
  if String.eqb o "x" then Ok (Nlp._x n)
  else if String.eqb o "g" then Ok (Nlp._lam_g n)
  else if String.eqb o "h" then Ok (Nlp._lam_h n)
  else if String.eqb o "h_lbx" then (p <- h_lbx_ ;; Ok (snd p))%res
  else if String.eqb o "h_ubx" then (p <- h_ubx_ ;; Ok (snd p))%res
  else Raise UnexpectedPrimalDualType.

Lemma primal_dual_args_spec order w :
  inv w ->
  exists w',
    DifferentiableNlp.primal_dual_args order w =
    (rmapM (primal_dual_block (DifferentiableNlp.nlp w)
                              (DifferentiableNlp.h_lbx_body w)
                              (DifferentiableNlp.h_ubx_body w)) order, w')
    /\ inv w' /\ same_instance w w'.
Proof.
  revert w. induction order as [|o order IH]; intros w I.
  - exists w. repeat split; auto; apply I.
  - cbn [DifferentiableNlp.primal_dual_args rmapM].
    unfold primal_dual_block at 1.
    unfold DifferentiableNlp.bind at 1.
    assert (Step : forall w1 (arg : vec),
               inv w1 -> same_instance w w1 ->
               exists w',
                 DifferentiableNlp.bind
                   (DifferentiableNlp.primal_dual_args order)
                   (fun args => DifferentiableNlp.ret (arg :: args)) w1 =
                 (rbind (rmapM (primal_dual_block
                                  (DifferentiableNlp.nlp w)
                                  (DifferentiableNlp.h_lbx_body w)
                                  (DifferentiableNlp.h_ubx_body w)) order)
                        (fun bs => Ok (arg :: bs)), w')
                 /\ inv w' /\ same_instance w w').
    { intros w1 arg I1 S1.
      assert (Hl1 : DifferentiableNlp.h_lbx_body w1 =
                    DifferentiableNlp.h_lbx_body w).
      { apply h_lbx_body_ext;
          [now apply same_instance_variables|apply S1]. }
      assert (Hu1 : DifferentiableNlp.h_ubx_body w1 =
                    DifferentiableNlp.h_ubx_body w).
      { apply h_ubx_body_ext;
          [now apply same_instance_variables|apply S1]. }
      destruct (IH w1 I1) as (w' & E & I' & S').
      exists w'. unfold DifferentiableNlp.bind.
      rewrite Hl1, Hu1, (proj1 S1) in E. rewrite E.
      split; [|split; [exact I'|]].
      - destruct (rmapM _ order); reflexivity.
      - eapply same_instance_trans; [exact S1|exact S']. }
    destruct I as [Hwf C].
    destruct (String.eqb o "x");
      [|destruct (String.eqb o "g");
        [|destruct (String.eqb o "h");
          [|destruct (String.eqb o "h_lbx");
            [|destruct (String.eqb o "h_ubx")]]]].
    + apply Step; [now split|apply same_instance_refl].
    + apply Step; [now split|apply same_instance_refl].
    + apply Step; [now split|apply same_instance_refl].
    + unfold DifferentiableNlp.bind at 1.
      destruct (h_lbx_spec C) as (w1 & -> & C1 & S1).
      assert (I1 : inv w1).
      { split; [|exact C1]. destruct S1 as (E1 & _). now rewrite E1. }
      destruct (DifferentiableNlp.h_lbx_body w) as [[hl ll]|e].
      * unfold DifferentiableNlp.ret at 1. cbn [snd rbind].
        now apply Step.
      * exists w1. cbn [rbind]. split; [reflexivity|]. now split.
    + unfold DifferentiableNlp.bind at 1.
      destruct (h_ubx_spec C) as (w1 & -> & C1 & S1).
      assert (I1 : inv w1).
      { split; [|exact C1]. destruct S1 as (E1 & _). now rewrite E1. }
      destruct (DifferentiableNlp.h_ubx_body w) as [[hu lu]|e].
      * unfold DifferentiableNlp.ret at 1. cbn [snd rbind].
        now apply Step.
      * exists w1. cbn [rbind]. split; [reflexivity|]. now split.
    + exists w. unfold DifferentiableNlp.lift. cbn [rbind].
      split; [reflexivity|]. split; [now split|apply same_instance_refl].
Qed.

(** X7. The loop of [primal_dual_variables], run over any order list on a
    wrapper reached through the public methods, appends one block per
    entry, in the order of the list: [x] for ["x"], [lam_g] for ["g"],
    [lam_h] for ["h"], and the multipliers returned by [h_lbx] and [h_ubx]
    for ["h_lbx"] and ["h_ubx"]; it raises what [h_lbx] or [h_ubx] raises
    at the first entry whose property does not return, and the
    [RuntimeError] of lines 101-104 at the first entry that is none of the
    five. *)
Theorem primal_dual_loop_follows_the_order_list
        (ncs : list NlpCall) (s b : bool) (cs : list Call)
        (order : list string) :
  let w := reached ncs s b cs in
  fst (DifferentiableNlp.primal_dual_args order w) =
  rmapM (primal_dual_block (DifferentiableNlp.nlp w)
                           (fst (DifferentiableNlp.h_lbx w))
                           (fst (DifferentiableNlp.h_ubx w))) order.
Proof.
  intros w. subst w.
  pose proof (reached_inv ncs s b cs) as I.
  rewrite reached_h_lbx, reached_h_ubx.
  destruct (primal_dual_args_spec order I) as (w' & -> & _).
  reflexivity.
Qed.

(** The loop on the example NLP and on the scalar without bounds, over
    the list that the module defines and over a list with a foreign
    entry. *)
Example primal_dual_loop_on_examples :
  fst (DifferentiableNlp.primal_dual_args
         ["x"; "h_lbx"] (reached scalar_calls true false [])) =
  Raise BackendError /\
  fst (DifferentiableNlp.primal_dual_args
         ["x"; "h_lbx"] (reached scalar_calls false false [])) =
  Ok [[Sym "x" 0]; [Sym "lam_lb_x" 0]] /\
  fst (DifferentiableNlp.primal_dual_args
         ["x"; "f"; "h_lbx"] (reached scalar_calls true false [])) =
  Raise UnexpectedPrimalDualType.
Proof. repeat split; vm_compute; reflexivity. Qed.

(* ================================================================== *)
(** * [csnlp/util/math.py]: combinatorics *)

From Stdlib Require Import ZArith FinFun.

Module Math.

(** The exceptions of this module. *)
Inductive Error : Type :=
| ValueError
| KeyError (key : string)
| OverflowError.

Definition Outcome (A : Type) : Type := (Error + A)%type.

(** [scipy.special.comb(n, k, exact=True)] on numbers of type [nat]:
    the binomial coefficient. *)
Fixpoint binomial (n k : nat) : nat :=
  match k, n with
  | 0, _ => 1
  | S _, 0 => 0
  | S k', S n' => binomial n' k' + binomial n' (S k')
  end.

(** [scipy.special.comb(n, k, exact=True)] on Python integers: zero when
    an argument is negative or [k > n]. *)
Definition comb (n k : Z) : Z :=
  if ((n <? 0) || (k <? 0) || (n <? k))%Z then 0%Z
  else Z.of_nat (binomial (Z.to_nat n) (Z.to_nat k)).

(** [list(itertools.combinations(l, k))] for [k >= 0]: the [k]-element
    subsequences of [l], in lexicographic order of the positions. *)
Fixpoint combinations {A} (l : list A) (k : nat) : list (list A) :=
  match k, l with
  | 0, _ => [[]]
  | S _, [] => []
  | S k', a :: l' => map (cons a) (combinations l' k') ++ combinations l' k
  end.

(** [np.row_stack(rows)]: a list without any row is refused. *)
Definition row_stack {A} (rows : list (list A)) : Outcome (list (list A)) :=
  match rows with
  | [] => inl ValueError
  | _ => inr rows
  end.

(** The argument [n] of [nchoosek] and its result: an integer, or an
    array (flattened) and the matrix of its combinations. *)
Inductive Items : Type :=
| Int (n : Z)
| Array (a : list Z).

Inductive Chosen : Type :=
| Count (c : Z)
| Rows (m : list (list Z)).

(** The branch of [nchoosek] for an array (line 170);
    [itertools.combinations] refuses a negative [k]. *)
Definition nchoosek_array (a : list Z) (k : Z) : Outcome (list (list Z)) :=
  if (k <? 0)%Z then inl ValueError
  else row_stack (combinations a (Z.to_nat k)).

(** [nchoosek(n, k)] (lines 149-170). *)
Definition nchoosek (n : Items) (k : Z) : Outcome Chosen :=
  match n with
  | Int n => inr (Count (comb n k))
  | Array a =>
      match nchoosek_array a k with
      | inl e => inl e
      | inr m => inr (Rows m)
      end
  end.

(** [np.arange(lo, hi)] on integers that an array of integers can
    hold. *)
Definition arange (lo hi : Z) : list Z :=
  map (fun i => (lo + Z.of_nat i)%Z) (seq 0 (Z.to_nat (hi - lo))).


(** [np.column_stack((left, middle, right))] for two columns around a
    matrix: the numbers of rows must agree. *)
Definition column_stack (left : list Z) (middle : list (list Z))
           (right : list Z) : Outcome (list (list Z)) :=
  if (length left =? length middle) && (length right =? length middle)
  then inr (map (fun lmr => fst (fst lmr) :: snd (fst lmr) ++ [snd lmr])
                (combine (combine left middle) right))
  else inl ValueError.

(** ** The entries of the arrays

    The arrays of [monomial_powers] hold 64-bit integers ([dtype=int]),
    whose arithmetic wraps around, or, once an array without integer
    entries has been stacked with them, binary64 numbers, whose
    arithmetic rounds.  The entries are integers in both cases and are
    kept as numbers of type [Z]. *)
Inductive DType : Type :=
| Int64
| Float64.

Definition int64_min : Z := (- 2 ^ 63)%Z.
Definition int64_max : Z := (2 ^ 63 - 1)%Z.

Definition fits_int64 (z : Z) : bool :=
  ((int64_min <=? z) && (z <=? int64_max))%Z.

(** The 64-bit integer that an integer result wraps around to. *)
Definition wrap64 (z : Z) : Z :=
  ((z - int64_min) mod 2 ^ 64 + int64_min)%Z.

(** The binary64 number nearest to an integer, ties to even: 53
    significant bits are kept. *)
Definition round_binary64 (z : Z) : Z :=
  let a := Z.abs z in
  if (a <=? 2 ^ 53)%Z then z
  else
    let e := (Z.log2 a - 52)%Z in
    let q := (a / 2 ^ e)%Z in
    let r := (a mod 2 ^ e)%Z in
    let q' := if (2 * r <? 2 ^ e)%Z then q
              else if (2 ^ e <? 2 * r)%Z then (q + 1)%Z
              else if Z.even q then q else (q + 1)%Z in
    (Z.sgn z * (q' * 2 ^ e))%Z.

(** The dtype of [np.row_stack] of a list of tuples of 64-bit integers:
    [float64] when the tuples are empty, which is the dtype of an array
    built from no entry. *)
Definition stacked_dtype (rows : list (list Z)) : DType :=
  match rows with
  | [] :: _ => Float64
  | _ => Int64
  end.

(** An entry of an array of 64-bit integers, once stacked into an array
    of the dtype [t]. *)
Definition store (t : DType) (z : Z) : Z :=
  match t with
  | Int64 => z
  | Float64 => round_binary64 z
  end.

(** [b - a] on two entries of an array of the dtype [t]. *)
Definition sub_as (t : DType) (b a : Z) : Z :=
  match t with
  | Int64 => wrap64 (b - a)
  | Float64 => round_binary64 (b - a)
  end.

(** [np.diff(row)] on a row of an array of the dtype [t]. *)
Fixpoint diff_as (t : DType) (row : list Z) : list Z :=
  match row with
  | a :: (b :: _) as row' => sub_as t b a :: diff_as t row'
  | _ => []
  end.

Section Numpy.

(** What numpy does with a Python integer that 64 bits cannot hold
    differs between its versions (a conversion that wraps around,
    [OverflowError], a refusal of the size), and what the conversion of a
    binary64 number outside the 64-bit range to an integer gives is left
    open by the platform: these three behaviours are taken as given.
    [arange_wide lo hi] is [np.arange(lo, hi)] when a bound does not fit,
    [full_wide v] the entry that [np.full(shape, v, dtype=int)] stores
    when [v] does not fit, and [astype_wide x] the result of
    [astype(int)] on a binary64 entry that does not fit. *)
Variable arange_wide : Z -> Z -> Outcome (list Z).
Variable full_wide : Z -> Outcome Z.
Variable astype_wide : Z -> Z.

(** [np.arange(lo, hi)] on Python integers. *)
Definition arange_int64 (lo hi : Z) : Outcome (list Z) :=
  if fits_int64 lo && fits_int64 hi then inr (arange lo hi)
  else arange_wide lo hi.

(** The entry of [np.full(shape, v, dtype=int)]. *)
Definition full_int64 (v : Z) : Outcome Z :=
  if fits_int64 v then inr v else full_wide v.

(** [astype(int)] on an entry of an array of the dtype [t]. *)
Definition astype_int (t : DType) (x : Z) : Z :=
  match t with
  | Int64 => x
  | Float64 => if fits_int64 x then x else astype_wide x
  end.

(** [monomial_powers(d, k)] (lines 173-195); the first call of
    [nchoosek] is on an integer, the second on an array.  The three
    blocks of [np.column_stack] are built from left to right, and the
    stacked array has the dtype of the block of the combinations when
    this is [float64]. *)
Definition monomial_powers (d k : Z) : Outcome (list (list Z)) :=
  let m := comb (k + d - 1) (d - 1) in
  match arange_int64 1 (k + d) with
  | inl e => inl e
  | inr items =>
      match nchoosek_array items (d - 1) with
      | inl e => inl e
      | inr combos =>
          match row_stack combos with
          | inl e => inl e
          | inr combos =>
              match full_int64 (k + d) with
              | inl e => inl e
              | inr fill =>
                  match column_stack (repeat 0%Z (Z.to_nat m)) combos
                                     (repeat fill (Z.to_nat m)) with
                  | inl e => inl e
                  | inr dividers =>
                      let t := stacked_dtype combos in
                      inr (rev (map (fun row =>
                                       map (fun x =>
                                              astype_int t (sub_as t x 1))
                                           (diff_as t (map (store t) row)))
                                    dividers))
                  end
              end
          end
      end
  end.

End Numpy.

(** Readings of the three behaviours: the conversions of a version of
    numpy in which a Python integer that does not fit goes through the
    unsigned 64-bit integers and wraps around, with a range that comes
    back empty, and the conversions of a version that raises
    [OverflowError]. *)
Definition arange_wide_empty (lo hi : Z) : Outcome (list Z) := inr [].
Definition full_wide_wraps (v : Z) : Outcome Z := inr (wrap64 v).
Definition astype_wide_min (x : Z) : Z := int64_min.
Definition arange_wide_raises (lo hi : Z) : Outcome (list Z) :=
  inl OverflowError.
Definition full_wide_raises (v : Z) : Outcome Z := inl OverflowError.

End Math.

(** ** Combinations *)

(** [r] is [l] with some entries left out. *)
Inductive Subsequence {A} : list A -> list A -> Prop :=
| sub_nil : Subsequence [] []
| sub_take a r l : Subsequence r l -> Subsequence (a :: r) (a :: l)
| sub_skip a r l : Subsequence r l -> Subsequence r (a :: l).

Lemma Subsequence_nil {A} (l : list A) : Subsequence [] l.
Proof. induction l; constructor; auto. Qed.

Lemma combinations_length {A} (l : list A) k :
  length (Math.combinations l k) = Math.binomial (length l) k.
Proof.
  revert k. induction l as [|a l IH]; intros [|k]; simpl; auto.
  now rewrite length_app, length_map, !IH.
Qed.

Lemma combinations_rows {A} (l : list A) k r :
  In r (Math.combinations l k) -> length r = k /\ Subsequence r l.
Proof.
  revert k r. induction l as [|a l IH]; intros [|k] r; simpl.
  - intros [<-|[]]. split; [reflexivity|constructor].
  - intros [].
  - intros [<-|[]]. split; [reflexivity|apply Subsequence_nil].
  - intros H. apply in_app_or in H. destruct H as [H|H].
    + apply in_map_iff in H. destruct H as (r' & <- & Hr').
      destruct (IH _ _ Hr') as [L S]. split; [simpl; congruence|].
      now constructor.
    + destruct (IH (S k) r H) as [L S]. split; [exact L|now constructor].
Qed.

Lemma binomial_pos n k : k <= n -> 0 < Math.binomial n k.
Proof.
  revert k. induction n as [|n IH]; intros [|k] H; simpl; try lia.
  specialize (IH k). lia.
Qed.

Lemma binomial_zero n k : n < k -> Math.binomial n k = 0.
Proof.
  revert k. induction n as [|n IH]; intros [|k] H; simpl; try lia.
  rewrite !IH by lia. reflexivity.
Qed.

Lemma row_stack_ok {A} (rows : list (list A)) :
  0 < length rows -> Math.row_stack rows = inr rows.
Proof. destruct rows; simpl; [lia|reflexivity]. Qed.

(** X8. On an array of [n] entries and [0 <= k <= n], [nchoosek] returns
    a matrix with as many rows as [nchoosek] gives for the integer [n],
    every row holding [k] entries of the array in the order of the array;
    for [k < 0] or [k > n] it raises [ValueError]. *)
Theorem nchoosek_array_rows (a : list Z) (k : Z) :
  let n := Z.of_nat (length a) in
  ((0 <= k <= n)%Z ->
   exists rows,
     Math.nchoosek (Math.Array a) k = inr (Math.Rows rows) /\
     Math.nchoosek (Math.Int n) k =
     inr (Math.Count (Z.of_nat (length rows))) /\
     Forall (fun r => Z.of_nat (length r) = k /\ Subsequence r a) rows) /\
  ((k < 0 \/ n < k)%Z ->
   Math.nchoosek (Math.Array a) k = inl Math.ValueError).
Proof.
  intros n. subst n. split.
  - intros [H0 Hn].
    exists (Math.combinations a (Z.to_nat k)).
    unfold Math.nchoosek, Math.nchoosek_array, Math.comb.
    destruct (Z.ltb_spec k 0); [lia|].
    destruct (Z.ltb_spec (Z.of_nat (length a)) 0); [lia|].
    destruct (Z.ltb_spec (Z.of_nat (length a)) k); [lia|]. simpl.
    rewrite Nat2Z.id. rewrite row_stack_ok.
    + rewrite combinations_length. split; [reflexivity|].
      split; [reflexivity|]. apply Forall_forall. intros r Hr.
      apply combinations_rows in Hr. destruct Hr as [L S].
      split; [lia|exact S].
    + rewrite combinations_length. apply binomial_pos. lia.
  - intros H. unfold Math.nchoosek, Math.nchoosek_array.
    destruct (Z.ltb_spec k 0); [reflexivity|].
    destruct H as [H|H]; [lia|].
    assert (E : Math.combinations a (Z.to_nat k) = []).
    { apply length_zero_iff_nil. rewrite combinations_length.
      apply binomial_zero. lia. }
    now rewrite E.
Qed.

(** A row of a few combinations of an array. *)
Lemma nchoosek_array_rows_witness :
  (0 <= 2 <= Z.of_nat (length [10; 20; 30]%Z))%Z /\
  exists rows,
    Math.nchoosek (Math.Array [10; 20; 30]%Z) 2 = inr (Math.Rows rows) /\
    Math.nchoosek (Math.Int (Z.of_nat (length [10; 20; 30]%Z))) 2 =
    inr (Math.Count (Z.of_nat (length rows))) /\
    Forall (fun r => Z.of_nat (length r) = 2%Z /\
                     Subsequence r [10; 20; 30]%Z) rows.
Proof.
  assert (H : (0 <= 2 <= Z.of_nat (length [10; 20; 30]%Z))%Z)
    by (simpl; lia).
  split; [exact H|].
  exact (proj1 (@nchoosek_array_rows [10; 20; 30]%Z 2%Z) H).
Defined.

(** ** Monomial powers *)























Section MonomialPowers.

Variable arange_wide : Z -> Z -> Math.Outcome (list Z).
Variable full_wide : Z -> Math.Outcome Z.
Variable astype_wide : Z -> Z.




End MonomialPowers.

(** The value for [d = 3], [k = 2], whatever happens outside the 64-bit
    range. *)
Example monomial_powers_3_2 aw fw cw :
  Math.monomial_powers aw fw cw 3 2 =
  inr [[2; 0; 0]; [1; 1; 0]; [1; 0; 1]; [0; 2; 0]; [0; 1; 1]; [0; 0; 2]]%Z.
Proof. vm_compute. reflexivity. Qed.

(** Outside the range the rows need not be powers: for [d = 1] and
    [k = 2 ^ 63], where the fill value [k + d] wraps around to
    [- 2 ^ 63 + 1] and the stacked array is of dtype [float64], the one
    row is [- 2 ^ 63]; where the fill value is refused, so is the
    call. *)
Example monomial_powers_beyond_int64 :
  Math.monomial_powers Math.arange_wide_empty Math.full_wide_wraps
                       Math.astype_wide_min 1 (2 ^ 63) =
  inr [[(- 2 ^ 63)%Z]] /\
  Math.monomial_powers Math.arange_wide_empty Math.full_wide_raises
                       Math.astype_wide_min 1 (2 ^ 63) =
  inl Math.OverflowError /\
  Math.monomial_powers Math.arange_wide_raises Math.full_wide_raises
                       Math.astype_wide_min 1 (2 ^ 63) =
  inl Math.OverflowError.
Proof. repeat split; lazy; reflexivity. Qed.


(* ================================================================== *)
(** * [csnlp/util/math.py]: the registry of normalization ranges *)

Module Normalization.

Section Ranges.

(** The arrays that hold the ranges. *)
Variable Range : Type.

(** [self.data] of the [UserDict]: names and ranges in insertion
    order. *)
Definition t : Type := list (string * Range).

(** [can_normalize] (lines 203-216). *)
Definition can_normalize (name : string) (self : t) : bool :=
  contains name self.

(** [self[k] = v]: the value of a present key is replaced in place, a new
    key goes to the end. *)
Definition setitem (k : string) (v : Range) (self : t) : t :=
  if contains k self
  then map (fun kv => if String.eqb k (fst kv) then (fst kv, v) else kv) self
  else self ++ [(k, v)].

(** [self.update(other, **kwargs)]: the items of [other], then the
    keyword arguments. *)
Definition update (other kwargs : list (string * Range)) (self : t) : t :=
  fold_left (fun d kv => setitem (fst kv) (snd kv) d) (other ++ kwargs) self.

(** The first key of a loop [for k in keys: if k in self.data: raise]. *)
Definition first_registered (keys : list string) (self : t) : option string :=
  find (fun k => contains k self) keys.

(** [register] (lines 218-241); [other] is a mapping or a sequence of
    pairs, read as its sequence of items. *)
Definition register (other : option (list (string * Range)))
           (kwargs : list (string * Range)) (self : t)
  : Math.Outcome unit * t :=
  match first_registered (map fst kwargs) self with
  | Some k => (inl (Math.KeyError k), self)
  | None =>
      match other with
      | None => (inr tt, update [] kwargs self)
      | Some items =>
          match first_registered (map fst items) self with
          | Some k => (inl (Math.KeyError k), self)
          | None => (inr tt, update items kwargs self)
          end
      end
  end.

End Ranges.

End Normalization.

Section NormalizationFacts.

Variable Range : Type.

Lemma assoc_app {V} k (d1 d2 : list (string * V)) :
  assoc k (d1 ++ d2) =
  match assoc k d1 with Some v => Some v | None => assoc k d2 end.
Proof.
  induction d1 as [|[k' v'] d1 IH]; simpl; auto.
  destruct (String.eqb k k'); auto.
Qed.

Lemma assoc_setitem k k' (v : Range) (d : Normalization.t Range) :
  assoc k (Normalization.setitem k' v d) =
  if String.eqb k k' then Some v else assoc k d.
Proof.
  unfold Normalization.setitem, contains.
  destruct (assoc k' d) as [v0|] eqn:E.
  - revert E. induction d as [|[k0 v1] d IH]; simpl; [discriminate|].
    destruct (String.eqb_spec k' k0) as [->|Hn]; simpl.
    + intros _. destruct (String.eqb_spec k k0) as [->|Hk].
      * reflexivity.
      * clear IH. assert (assoc k (map (fun kv => if String.eqb k0 (fst kv)
                                 then (fst kv, v) else kv) d) = assoc k d)
          as ->; [|reflexivity].
        induction d as [|[k1 v2] d IHd]; simpl; auto.
        destruct (String.eqb_spec k0 k1) as [->|H1]; simpl;
          destruct (String.eqb_spec k k1); try congruence; auto.
    + intros E. rewrite (IH E).
      destruct (String.eqb_spec k k0) as [->|Hk].
      * destruct (String.eqb_spec k0 k'); congruence.
      * reflexivity.
  - rewrite assoc_app. simpl.
    destruct (String.eqb_spec k k') as [->|Hk].
    + now rewrite E.
    + now destruct (assoc k d).
Qed.

Lemma assoc_fold_setitem k items (d : Normalization.t Range) :
  assoc k (fold_left (fun d kv => Normalization.setitem (fst kv) (snd kv) d)
                     items d) =
  match assoc k (rev items) with Some v => Some v | None => assoc k d end.
Proof.
  revert d. induction items as [|[k' v] items IH]; intros d; simpl; auto.
  rewrite IH, assoc_app, assoc_setitem. simpl.
  destruct (assoc k (rev items)); auto.
  destruct (String.eqb k k'); auto.
Qed.

Lemma first_registered_none keys (d : Normalization.t Range) :
  Normalization.first_registered keys d = None <->
  forall k, In k keys -> Normalization.can_normalize k d = false.
Proof.
  unfold Normalization.first_registered, Normalization.can_normalize. split.
  - intros H k Hk. now apply (find_none _ _ H).
  - intros H. induction keys as [|k keys IH]; simpl; auto.
    rewrite (H k) by now left. apply IH. intros k' Hk'. apply H. now right.
Qed.

Definition items_of (other : option (list (string * Range)))
  : list (string * Range) :=
  match other with Some items => items | None => [] end.

Lemma register_outcome (other : option (list (string * Range)))
      (kwargs : list (string * Range)) (self : Normalization.t Range) :
  (Normalization.register other kwargs self =
   (inr tt, Normalization.update (items_of other) kwargs self) /\
   (forall k, In k (map fst kwargs) ->
              Normalization.can_normalize k self = false) /\
   (forall k, In k (map fst (items_of other)) ->
              Normalization.can_normalize k self = false)) \/
  (exists k,
      Normalization.register other kwargs self =
      (inl (Math.KeyError k), self) /\
      In k (map fst kwargs ++ map fst (items_of other)) /\
      Normalization.can_normalize k self = true).
Proof.
  unfold Normalization.register.
  destruct (Normalization.first_registered (map fst kwargs) self)
    as [k|] eqn:E1.
  - apply find_some in E1. destruct E1 as [Hin Hc]. right. exists k.
    split; [reflexivity|]. split; [apply in_or_app; now left|exact Hc].
  - pose proof (proj1 (first_registered_none _ _) E1) as N1.
    destruct other as [items|]; cbn [items_of].
    + destruct (Normalization.first_registered (map fst items) self)
        as [k|] eqn:E2.
      * apply find_some in E2. destruct E2 as [Hin Hc]. right. exists k.
        split; [reflexivity|]. split; [apply in_or_app; now right|exact Hc].
      * pose proof (proj1 (first_registered_none _ _) E2) as N2.
        left. auto.
    + left. split; [reflexivity|]. split; [exact N1|]. intros k [].
Qed.

(** X11. [register] succeeds exactly when none of the names of the
    keyword arguments and of [other] is registered; otherwise it raises
    [KeyError] for a registered name among them and leaves the registry
    as it was. *)
Theorem register_refuses_registered_names
        (other : option (list (string * Range)))
        (kwargs : list (string * Range)) (self : Normalization.t Range) :
  let names := map fst kwargs ++ map fst (items_of other) in
  let r := Normalization.register other kwargs self in
  (fst r = inr tt <->
   forall k, In k names -> Normalization.can_normalize k self = false) /\
  (forall e, fst r = inl e ->
             snd r = self /\
             exists k, e = Math.KeyError k /\ In k names /\
                       Normalization.can_normalize k self = true).
Proof.
  intros names r. subst names r.
  destruct (register_outcome other kwargs self)
    as [(-> & N1 & N2)|(k & -> & Hin & Hc)]; cbn [fst snd].
  - split.
    + split; [|reflexivity]. intros _ k Hk.
      apply in_app_or in Hk. destruct Hk; auto.
    + intros e He. discriminate He.
  - split.
    + split; [discriminate|]. intros H. rewrite (H k Hin) in Hc.
      discriminate Hc.
    + intros e He. inversion He; subst. split; [reflexivity|].
      exists k. auto.
Qed.

Lemma assoc_In_fst {V} name (l : list (string * V)) v :
  assoc name l = Some v -> In name (map fst l).
Proof.
  induction l as [|[k x] l IH]; simpl; [discriminate|].
  destruct (String.eqb_spec name k); [now left|right; auto].
Qed.

(** X12. After a [register] that succeeds, the range found under a name
    is the one of the last keyword argument of this name, else the one of
    the last item of [other] of this name, else the range that was
    registered before; so the ranges registered before are all kept as
    they were. *)
Theorem register_then_lookup
        (other : option (list (string * Range)))
        (kwargs : list (string * Range)) (self : Normalization.t Range)
        (name : string) :
  fst (Normalization.register other kwargs self) = inr tt ->
  let self' := snd (Normalization.register other kwargs self) in
  assoc name self' =
  match assoc name (rev kwargs) with
  | Some v => Some v
  | None => match assoc name (rev (items_of other)) with
            | Some v => Some v
            | None => assoc name self
            end
  end /\
  (Normalization.can_normalize name self = true ->
   assoc name self' = assoc name self).
Proof.
  intros Hok self'. subst self'.
  destruct (register_outcome other kwargs self)
    as [(E & N1 & N2)|(k & E & _)]; rewrite E in *; cbn [fst snd] in *;
    [|discriminate Hok].
  assert (L : assoc name (Normalization.update (items_of other) kwargs self) =
              match assoc name (rev kwargs) with
              | Some v => Some v
              | None => match assoc name (rev (items_of other)) with
                        | Some v => Some v
                        | None => assoc name self
                        end
              end).
  { unfold Normalization.update.
    rewrite assoc_fold_setitem, rev_app_distr, assoc_app.
    now destruct (assoc name (rev kwargs)). }
  split; [exact L|].
  intros Hc. rewrite L.
  assert (N : forall (l : list (string * Range)),
             (forall k, In k (map fst l) ->
                        Normalization.can_normalize k self = false) ->
             assoc name (rev l) = None).
  { intros l Hl. destruct (assoc name (rev l)) as [v|] eqn:Ea; auto.
    exfalso. apply assoc_In_fst in Ea. rewrite map_rev in Ea.
    apply in_rev in Ea. rewrite (Hl name Ea) in Hc. discriminate Hc. }
  now rewrite (N kwargs N1), (N (items_of other) N2).
Qed.

End NormalizationFacts.

(** The registry of the docstring: one range registered, then a second
    registration that repeats its name. *)
Lemma register_then_lookup_witness :
  let self := [("x", [0%float; 1%float])] in
  let kwargs := [("y", [2%float; 3%float])] in
  fst (Normalization.register None kwargs self) = inr tt /\
  assoc "x" (snd (Normalization.register None kwargs self)) =
  Some [0%float; 1%float].
Proof.
  intros self kwargs.
  assert (H : fst (Normalization.register None kwargs self) = inr tt)
    by (vm_compute; reflexivity).
  split; [exact H|].
  exact (proj2 (@register_then_lookup (list float) None kwargs self "x" H)
               eq_refl).
Defined.

Lemma register_refuses_registered_names_witness :
  let self := [("x", [0%float; 1%float])] in
  let other := Some [("y", [2%float; 3%float]); ("x", [5%float; 6%float])] in
  fst (Normalization.register other [] self) = inl (Math.KeyError "x") /\
  snd (Normalization.register other [] self) = self.
Proof.
  intros self other.
  assert (H : fst (Normalization.register other [] self) =
              inl (Math.KeyError "x")) by (vm_compute; reflexivity).
  split; [exact H|].
  exact (proj1 (proj2 (@register_refuses_registered_names
                         (list float) other [] self) _ H)).
Defined.

(* ================================================================== *)
(** * The monomials of a degree, each one once *)
















